(** * Frogger: the state-transition engine of [src/main.ts]

    A shallow embedding of the pure part of the game (entity factory,
    torus wrap, collision predicates, progress tracking and the reducer
    [reduceState]) together with the properties of its specification.

    Modelling conventions.
    - A JavaScript [number] is modelled by an exact rational ([Q]).  Every
      constant of the game is an integer or a half, so the arithmetic the
      game performs is exact; comparisons ([<], [<=], [===]) are the
      semantic ones on [Q].  The one place where the source can produce
      [NaN] (reading a digit out of an id) is modelled apart, see [Number_char].
      Positions, speeds and payloads that are [NaN] or infinite are outside
      the model, and so is the rounding of sums that are not multiples of a
      half: statements below either do not depend on it or say so.
    - A thrown [TypeError] (reading a property of [undefined], reducing
      an empty array without a seed) is [None] in the [option] monad.
    - [interface IBody extends Frog] is a record with a coercion to [Frog]. *)

From Stdlib Require Import QArith Qabs Lqa ZArith Lia List String Ascii Bool DecimalString.
From Stdlib Require DecimalNat FinFun.
Import ListNotations.

Open Scope string_scope.
Open Scope list_scope.
Open Scope Q_scope.

(** ** Numbers and the error monad *)

Definition Qltb (a b : Q) : bool := negb (Qle_bool b a).

(** [a && b] where evaluating [b] may throw: [b] is only evaluated when
    [a] holds. *)
Definition and_then (a : bool) (b : option bool) : option bool :=
  if a then b else Some false.

Notation "x <- c1 ;; c2" :=
  (match c1 with Some x => c2 | None => None end)
  (at level 61, c1 at next level, right associativity).

(** ** Game constants *)

Module CONSTANTS.
Definition TICK : Q := 100.
Definition CANVAS_SIZE : Q := 600.
Definition FROG_START_X : Q := 279.
Definition FROG_START_Y : Q := 523.
Definition FROG_STEP_X : Q := 43.
Definition FROG_STEP_Y : Q := 59.
Definition FROG_WIDTH : Q := 40.
Definition FROG_HEIGHT : Q := 42.
Definition CAR_COUNT : nat := 3.
Definition CAR_WIDTH : Q := 40.
Definition CAR_HEIGHT : Q := 42.
Definition CAR1_SPEED : Q := -10.
Definition CAR2_SPEED : Q := 20.
Definition CAR3_SPEED : Q := -15.
Definition LOG_COUNT : nat := 3.
Definition LOG_WIDTH : Q := 140.
Definition LOG_HEIGHT : Q := 42.
Definition LOG1_SPEED : Q := 10.
Definition LOG2_SPEED : Q := 15.
Definition TURTLE_WIDTH : Q := 180.
Definition TURTLE_HEIGHT : Q := 42.
Definition TURTLE_SPEED : Q := -5.
Definition TURTLE_COUNT : nat := 3.
Definition TARGET_POINTS : Q := 100.
Definition TARGET_COUNT : nat := 5.
Definition ROW_1 : Q := 464.
Definition ROW_2 : Q := 405.
Definition ROW_3 : Q := 346.
Definition ROW_4 : Q := 228.
Definition ROW_5 : Q := 169.
Definition ROW_6 : Q := 110.
Definition ROW_7 : Q := 51.
Definition OBJECT_WIDTH : Q := 200.
Definition OBJECT_SPACING : Q := -500.
Definition BUSH_WIDTH : Q := 129.
Definition SPEED_INCREASE : Q := 0.5.
End CONSTANTS.

(** ** Events *)

Inductive Event : Type :=
| Tick (num : Q)
| Move (dx dy : Q)
| Restart (val : bool).

(** The events the keyboard and clock observables emit
    ([moveLeft$], [moveRight$], [moveUp$], [moveDown$], [restart$], [tick$]). *)
Definition moveLeft : Event := Move (- CONSTANTS.FROG_STEP_X) 0.
Definition moveRight : Event := Move CONSTANTS.FROG_STEP_X 0.
Definition moveUp : Event := Move 0 (- CONSTANTS.FROG_STEP_Y).
Definition moveDown : Event := Move 0 CONSTANTS.FROG_STEP_Y.
Definition restart : Event := Restart true.

Inductive emitted : Event -> Prop :=
| emit_left : emitted moveLeft
| emit_right : emitted moveRight
| emit_up : emitted moveUp
| emit_down : emitted moveDown
| emit_restart : emitted restart
| emit_tick (signal : nat) : emitted (Tick (inject_Z (Z.of_nat signal))).

(** ** Data model *)

Record Frog : Type := mkFrog {
  id : string;
  x : Q;
  y : Q;
  img : string;
  width : Q;
  height : Q;
}.

Record Body : Type := mkBody {
  base :> Frog;
  leftDirection : bool;
}.

Record State : Type := mkState {
  frog : Frog;
  cars : list Body;
  logs : list Body;
  turtles : list Body;
  filledSpaces : list Body;
  filledSpacesIndex : list (option Z);
  score : Q;
  highscore : Q;
  level : Q;
  gameOver : bool;
}.

(** Object spread with one overridden field. *)
Definition with_x (f : Frog) (newX : Q) : Frog :=
  mkFrog (id f) newX (y f) (img f) (width f) (height f).

Definition with_xy (f : Frog) (newX newY : Q) : Frog :=
  mkFrog (id f) newX newY (img f) (width f) (height f).

Definition body_with_x (b : Body) (newX : Q) : Body :=
  mkBody (with_x b newX) (leftDirection b).

Definition with_frog (s : State) (f : Frog) : State :=
  mkState f (cars s) (logs s) (turtles s) (filledSpaces s)
          (filledSpacesIndex s) (score s) (highscore s) (level s) (gameOver s).

Definition with_gameOver (s : State) (g : bool) : State :=
  mkState (frog s) (cars s) (logs s) (turtles s) (filledSpaces s)
          (filledSpacesIndex s) (score s) (highscore s) (level s) g.

Definition with_highscore (s : State) (h : Q) : State :=
  mkState (frog s) (cars s) (logs s) (turtles s) (filledSpaces s)
          (filledSpacesIndex s) (score s) h (level s) (gameOver s).

(** ** Entity factory *)

(** Template-literal rendering of the small integers used in ids. *)
Definition str_of_Z (n : Z) : string := NilZero.string_of_int (Z.to_int n).
Definition str_of_nat (n : nat) : string := NilZero.string_of_uint (Nat.to_uint n).

Definition createFrog (i : string) (im : string) (pos : Q * Q) (size : Q * Q) : Frog :=
  mkFrog i (fst pos) (snd pos) im (fst size) (snd size).

Definition Q_of_nat (n : nat) : Q := inject_Z (Z.of_nat n).

Fixpoint createCarRow (row : Z) (col : nat) (cars : list Body) : list Body :=
  match col with
  | O => cars
  | S col' =>
    let newCar :=
      mkBody
        (mkFrog ("CAR" ++ str_of_Z row ++ "-" ++ str_of_nat col)
                (Q_of_nat col * CONSTANTS.OBJECT_WIDTH)
                (if (row =? 3)%Z then CONSTANTS.ROW_3
                 else if (row =? 2)%Z then CONSTANTS.ROW_2 else CONSTANTS.ROW_1)
                (if (row =? 3)%Z then "../frogger/assets/car3.png"
                 else if (row =? 2)%Z then "../frogger/assets/car2.png"
                 else "../frogger/assets/car1.png")
                CONSTANTS.CAR_WIDTH CONSTANTS.CAR_HEIGHT)
        (Z.rem row 2 =? 0)%Z in
    createCarRow row col' (cars ++ [newCar])
  end.

Definition car1 := createCarRow 1.
Definition car2 := createCarRow 2.
Definition car3 := createCarRow 3.

Fixpoint createLogRow (row : Z) (col : nat) (logs : list Body) : list Body :=
  match col with
  | O => logs
  | S col' =>
    let newLog :=
      mkBody
        (mkFrog ("LOG" ++ str_of_Z row ++ "-" ++ str_of_nat col)
                (Q_of_nat col * CONSTANTS.OBJECT_WIDTH)
                (if (row =? 2)%Z then CONSTANTS.ROW_6 else CONSTANTS.ROW_4)
                "../frogger/assets/log.png"
                CONSTANTS.LOG_WIDTH CONSTANTS.LOG_HEIGHT)
        false in
    createLogRow row col' (logs ++ [newLog])
  end.

Definition log1 := createLogRow 1.
Definition log2 := createLogRow 2.

Fixpoint createTurtleRow (col : nat) (turtles : list Body) : list Body :=
  match col with
  | O => turtles
  | S col' =>
    let newTurtle :=
      mkBody
        (mkFrog ("TURTLE-" ++ str_of_nat col)
                (Q_of_nat col * CONSTANTS.OBJECT_WIDTH)
                CONSTANTS.ROW_5
                "../frogger/assets/turtles.png"
                CONSTANTS.TURTLE_WIDTH CONSTANTS.TURTLE_HEIGHT)
        true in
    createTurtleRow col' (turtles ++ [newTurtle])
  end.

Fixpoint createFilledSpaces (col : nat) (filledSpace : list Body) : list Body :=
  match col with
  | O => filledSpace
  | S col' =>
    let newFilledSpace :=
      mkBody
        (mkFrog ("FILLED" ++ str_of_nat col)
                ((CONSTANTS.FROG_START_X - 6 * CONSTANTS.FROG_STEP_X)
                 + Q_of_nat col * CONSTANTS.BUSH_WIDTH - CONSTANTS.BUSH_WIDTH)
                CONSTANTS.ROW_7
                "../frogger/assets/frog.png"
                CONSTANTS.FROG_WIDTH CONSTANTS.FROG_HEIGHT)
        false in
    createFilledSpaces col' (filledSpace ++ [newFilledSpace])
  end.

(** ** Motion engine *)

Definition wrap (objectState : Body) (left : bool) (speed : Q) : Body :=
  let newX := x objectState + speed in
  if left then
    body_with_x objectState
      (if Qle_bool CONSTANTS.CANVAS_SIZE newX then - width objectState / 2 else newX)
  else
    body_with_x objectState
      (if Qle_bool newX (- width objectState)
       then CONSTANTS.CANVAS_SIZE - width objectState / 2 else newX).

(** ** Collision detector *)

Definition onWaterObj (frog : Frog) (object : Body) : bool :=
  (Qle_bool (x object) (x frog)
   && Qltb (x frog) (x object + 3 * CONSTANTS.FROG_STEP_X))
  && Qeq_bool (y frog) (y object).

Definition nonEmpty {A : Type} (l : list A) : bool := (0 <? List.length l)%nat.

Definition frogOnLog (state : State) : bool :=
  nonEmpty (filter (fun log => onWaterObj (frog state) log) (logs state)).

Definition frogOnTurtle (state : State) : bool :=
  nonEmpty (filter (fun turtle => onWaterObj (frog state) turtle) (turtles state)).

Definition getXCoord (num : Q) : Q :=
  CONSTANTS.FROG_START_X + num * CONSTANTS.FROG_STEP_X.

Definition onBushes (frog : Frog) : bool :=
  (Qle_bool (x frog + width frog) (getXCoord (-3) + width frog / 4)
   && Qle_bool (getXCoord (-5) - width frog / 4) (x frog)
   || Qle_bool (x frog + width frog) (CONSTANTS.FROG_START_X + width frog / 4)
      && Qle_bool (getXCoord (-2) - width frog / 4) (x frog)
   || Qle_bool (x frog + width frog) (getXCoord 3 + width frog / 4)
      && Qle_bool (getXCoord 1 - width frog / 4) (x frog)
   || Qle_bool (x frog + width frog) (getXCoord 6 + width frog / 4)
      && Qle_bool (getXCoord 4 - width frog / 4) (x frog))
  && Qeq_bool (y frog) CONSTANTS.ROW_7.

(** The helpers local to [handleCollisions]. *)
Definition obstacleCollision (frog : Frog) (obstacle : Body) : bool :=
  ((Qltb (x obstacle) (x frog + width frog) && Qltb (x frog) (x obstacle))
   || (Qltb (x frog) (x obstacle + width obstacle)
       && Qltb (x obstacle + width obstacle) (x frog + width frog)))
  && Qeq_bool (y frog) (y obstacle).

Definition frogCollided (state : State) : bool :=
  nonEmpty (filter (fun car => obstacleCollision (frog state) car) (cars state)).

Definition onWater (frog : Frog) : bool :=
  Qle_bool CONSTANTS.ROW_6 (y frog) && Qle_bool (y frog) CONSTANTS.ROW_4.

Definition unsafeBoundary (frog : Frog) : bool :=
  Qle_bool CONSTANTS.CANVAS_SIZE (x frog + width frog / 2)
  || Qle_bool (x frog + width frog / 2) 0.

Definition frogOnObj (state : State) : bool :=
  frogOnLog state || frogOnTurtle state.

Definition handleCollisions (state : State) : State :=
  with_gameOver state
    (frogCollided state
     || (onWater (frog state) && negb (frogOnObj state))
     || (frogOnObj state && unsafeBoundary (frog state))
     || onBushes (frog state)).

(** ** Initial state and play-field bounds *)

Definition initialState : State := {|
  frog := createFrog "FROG" "../frogger/assets/frog.png"
            (CONSTANTS.FROG_START_X, CONSTANTS.FROG_START_Y)
            (CONSTANTS.FROG_WIDTH, CONSTANTS.FROG_HEIGHT);
  cars := car1 CONSTANTS.CAR_COUNT []
            ++ car2 CONSTANTS.CAR_COUNT [] ++ car3 CONSTANTS.CAR_COUNT [];
  logs := log1 CONSTANTS.LOG_COUNT [] ++ log2 CONSTANTS.LOG_COUNT [];
  turtles := createTurtleRow CONSTANTS.TURTLE_COUNT [];
  filledSpaces := createFilledSpaces CONSTANTS.TARGET_COUNT [];
  filledSpacesIndex := [];
  score := 0;
  highscore := 0;
  level := 0;
  gameOver := false;
|}.

Definition outLeftBound (xPos : Q) : bool := Qltb xPos (getXCoord (-6)).
Definition outRightBound (xPos : Q) : bool := Qle_bool (getXCoord 7) xPos.
Definition outUpBound (yPos : Q) : bool := Qltb yPos CONSTANTS.ROW_7.
Definition outDownBound (yPos : Q) : bool :=
  Qle_bool (CONSTANTS.FROG_START_Y + CONSTANTS.FROG_STEP_Y) yPos.

Definition illegalMove (xPos yPos : Q) : bool :=
  outLeftBound xPos || outRightBound xPos || outUpBound yPos || outDownBound yPos.

(** ** Progress tracker *)

Definition inTarget (state : State) : bool :=
  Qeq_bool (y (frog state)) CONSTANTS.ROW_7 && negb (onBushes (frog state)).

(** [Array.prototype.reduce] without a seed: the first element seeds the
    fold, and an empty array throws. *)
Definition reduce {A : Type} (f : A -> A -> A) (l : list A) : option A :=
  match l with
  | [] => None
  | first :: rest => Some (fold_left f rest first)
  end.

Definition nearestObject (state : State) : option Body :=
  reduce (fun (acc object : Body) =>
            if Qltb (Qabs (x object - x (frog state))) (Qabs (x acc - x (frog state)))
            then object else acc)
         (filledSpaces state).

(** [Number(c)] for the result [c] of indexing a string: a decimal digit is
    its value, a white-space character trims to the empty string and is 0,
    and everything else, [undefined] included, is [NaN] (here [None]). *)
Definition Number_char (c : option ascii) : option Z :=
  match c with
  | None => None
  | Some a =>
    let n := Z.of_N (N_of_ascii a) in
    if ((48 <=? n) && (n <=? 57))%Z then Some (n - 48)%Z
    else if ((9 <=? n) && (n <=? 13) || (n =? 32) || (n =? 160))%Z then Some 0%Z
    else None
  end.

(** [Number(o.id[6]) - 1]; [NaN - 1] is [NaN]. *)
Definition targetIndexOf (o : Body) : option Z :=
  option_map (fun n => (n - 1)%Z) (Number_char (String.get 6 (id o))).

(** SameValueZero on slot indices: equal integers, or both [NaN]. *)
Definition sameValueZero (a b : option Z) : bool :=
  match a, b with
  | Some m, Some n => (m =? n)%Z
  | None, None => true
  | _, _ => false
  end.

Definition includes (l : list (option Z)) (v : option Z) : bool :=
  existsb (sameValueZero v) l.

Definition updateFilledInd (state : State) : option (list (option Z)) :=
  if inTarget state then
    o <- nearestObject state ;;
    let targetIndex := targetIndexOf o in
    Some (filledSpacesIndex state
          ++ (if includes (filledSpacesIndex state) targetIndex then [] else [targetIndex]))
  else Some (filledSpacesIndex state).

Definition checkFilled (state : State) : option bool :=
  o <- nearestObject state ;;
  let targetIndex := targetIndexOf o in
  Some (includes (filledSpacesIndex state) targetIndex).

Definition updateScore (state : State) : option Q :=
  c <- and_then (inTarget state) (f <- checkFilled state ;; Some (negb f)) ;;
  if c then Some (score state + 100) else Some (score state).

(** ** World reducer *)

(** The snapshot both [Restart] and a game-over tick return: every field is
    rebuilt except [highscore], which the spread carries over. *)
Definition resetState (currentState : State) : State := {|
  frog := createFrog "FROG" "../frogger/assets/frog.png"
            (CONSTANTS.FROG_START_X, CONSTANTS.FROG_START_Y)
            (CONSTANTS.FROG_WIDTH, CONSTANTS.FROG_HEIGHT);
  cars := car1 CONSTANTS.CAR_COUNT []
            ++ car2 CONSTANTS.CAR_COUNT [] ++ car3 CONSTANTS.CAR_COUNT [];
  logs := log1 CONSTANTS.LOG_COUNT [] ++ log2 CONSTANTS.LOG_COUNT [];
  turtles := createTurtleRow CONSTANTS.TURTLE_COUNT [];
  filledSpaces := createFilledSpaces CONSTANTS.TARGET_COUNT [];
  filledSpacesIndex := [];
  score := 0;
  highscore := highscore currentState;
  level := 0;
  gameOver := false;
|}.

(** [s[i] === c] for a string [s]. *)
Definition char_is (c : option ascii) (a : ascii) : bool :=
  match c with
  | Some b => Ascii.eqb b a
  | None => false
  end.

(** The three callbacks [tick] maps over the collections (the source writes
    them out twice, once per branch, identically). *)
Definition moveCar (speedMultiplier : Q) (carState : Body) : Body :=
  let carWrap := wrap carState in
  if leftDirection carState then
    carWrap true (CONSTANTS.CAR2_SPEED + speedMultiplier)
  else if char_is (String.get 3 (id carState)) "3" then
    carWrap false (CONSTANTS.CAR3_SPEED - speedMultiplier)
  else
    carWrap false (CONSTANTS.CAR1_SPEED - speedMultiplier).

Definition moveLog (speedMultiplier : Q) (logState : Body) : Body :=
  let logWrap := wrap logState in
  if char_is (String.get 3 (id logState)) "2" then
    logWrap true (CONSTANTS.LOG2_SPEED + speedMultiplier)
  else
    logWrap true (CONSTANTS.LOG1_SPEED + speedMultiplier).

Definition moveTurtle (speedMultiplier : Q) (turtleState : Body) : Body :=
  let turtleWrap := wrap turtleState in
  turtleWrap false (CONSTANTS.TURTLE_SPEED - speedMultiplier).

(** [frog.y === bodies[i].y]; throws when [bodies[i]] is [undefined]. *)
Definition sameRowAs (f : Frog) (bodies : list Body) (i : nat) : option bool :=
  b <- nth_error bodies i ;; Some (Qeq_bool (y f) (y b)).

(** The [frog:] entry of the snapshot a tick builds. *)
Definition tickFrog (currentState : State) (speedMultiplier : Q) : option Frog :=
  let f := frog currentState in
  if inTarget currentState then Some (frog initialState) else
  onLog1 <- and_then (frogOnLog currentState) (sameRowAs f (logs currentState) 0) ;;
  if onLog1 then
    Some (with_x f (x f + (CONSTANTS.LOG1_SPEED + speedMultiplier)))
  else
  onLog2 <- and_then (frogOnLog currentState) (sameRowAs f (logs currentState) 3) ;;
  if onLog2 then
    Some (with_x f (x f + (CONSTANTS.LOG2_SPEED + speedMultiplier)))
  else
  onTurtle <- and_then (frogOnTurtle currentState) (sameRowAs f (turtles currentState) 0) ;;
  if onTurtle then
    Some (with_x f (x f + (CONSTANTS.TURTLE_SPEED - speedMultiplier)))
  else Some f.

Definition newHighscore (currentState : State) : Q :=
  if Qle_bool (highscore currentState) (score currentState)
  then score currentState else highscore currentState.

Definition tick (currentState : State) : option State :=
  let speedMultiplier := level currentState * CONSTANTS.SPEED_INCREASE in
  if gameOver currentState then
    Some (resetState currentState)
  else if (List.length (filledSpacesIndex currentState) <? 5)%nat then
    newScore <- updateScore currentState ;;
    newFrog <- tickFrog currentState speedMultiplier ;;
    newIndex <- updateFilledInd currentState ;;
    Some (handleCollisions {|
      frog := newFrog;
      cars := map (moveCar speedMultiplier) (cars currentState);
      logs := map (moveLog speedMultiplier) (logs currentState);
      turtles := map (moveTurtle speedMultiplier) (turtles currentState);
      filledSpaces := filledSpaces currentState;
      filledSpacesIndex := newIndex;
      score := newScore;
      highscore := newHighscore currentState;
      level := level currentState;
      gameOver := gameOver currentState;
    |})
  else
    newScore <- updateScore currentState ;;
    newFrog <- tickFrog currentState speedMultiplier ;;
    Some (handleCollisions {|
      frog := newFrog;
      cars := map (moveCar speedMultiplier) (cars currentState);
      logs := map (moveLog speedMultiplier) (logs currentState);
      turtles := map (moveTurtle speedMultiplier) (turtles currentState);
      filledSpaces := filledSpaces currentState;
      filledSpacesIndex := [];
      score := newScore;
      highscore := newHighscore currentState;
      level := level currentState + 1;
      gameOver := gameOver currentState;
    |}).

Definition reduceState (currentState : State) (event : Event) : option State :=
  match event with
  | Move ex ey =>
    let newX := x (frog currentState) + ex in
    let newY := y (frog currentState) + ey in
    Some (with_frog currentState
            (with_xy (frog currentState)
               (if illegalMove newX CONSTANTS.FROG_START_Y
                then x (frog currentState) else x (frog currentState) + ex)
               (if illegalMove CONSTANTS.FROG_START_X newY
                then y (frog currentState) else y (frog currentState) + ey)))
  | Restart _ => Some (resetState currentState)
  | Tick _ => tick currentState
  end.

(** [scan(reduceState, initialState)] over a finite prefix of the stream. *)
Fixpoint scan (s : State) (events : list Event) : option State :=
  match events with
  | [] => Some s
  | e :: rest => s' <- reduceState s e ;; scan s' rest
  end.

(** Snapshots reachable from [initialState] through events satisfying [P]. *)
Inductive reachable_by (P : Event -> Prop) : State -> Prop :=
| reach_init : reachable_by P initialState
| reach_step (s s' : State) (e : Event) :
    reachable_by P s -> P e -> reduceState s e = Some s' -> reachable_by P s'.

Definition any_event (e : Event) : Prop := True.

(** ** Notions used by the specification *)

(** A body is entirely outside the canvas when it lies at or beyond the right
    edge, or its right end is at or before the left edge: the two thresholds
    [wrap] itself tests. *)
Definition entirelyOutside (b : Body) : bool :=
  Qle_bool CONSTANTS.CANVAS_SIZE (x b) || Qle_bool (x b + width b) 0.

(** The shape every snapshot of the game has: the five target slots of the
    factory, and the two rows of logs that [tick] indexes at 0 and 3. *)
Definition well_formed (s : State) : Prop :=
  filledSpaces s = createFilledSpaces CONSTANTS.TARGET_COUNT []
  /\ (4 <= List.length (logs s))%nat.

Definition slot_index (v : option Z) : Prop :=
  exists i : Z, v = Some i /\ (0 <= i <= 4)%Z.

Definition filled_ok (l : list (option Z)) : Prop :=
  (forall v, In v l -> slot_index v) /\ NoDup l.

Definition slots_inv (s : State) : Prop :=
  filledSpaces s = createFilledSpaces CONSTANTS.TARGET_COUNT []
  /\ filled_ok (filledSpacesIndex s).

Definition frogRow (v : Q) : Prop :=
  exists k : nat, (k <= 8)%nat
    /\ v == CONSTANTS.FROG_START_Y - CONSTANTS.FROG_STEP_Y * Q_of_nat k.

Definition allSlots : list (option Z) :=
  [Some 0%Z; Some 1%Z; Some 2%Z; Some 3%Z; Some 4%Z].

Definition with_filledSpacesIndex (s : State) (l : list (option Z)) : State :=
  mkState (frog s) (cars s) (logs s) (turtles s) (filledSpaces s)
          l (score s) (highscore s) (level s) (gameOver s).

(** ** Concrete snapshots and bodies used as examples *)

(** A snapshot flagged game over, one step of motion after the start. *)
Definition crashedState : State :=
  mkState (mkFrog "FROG" 150 405 "../frogger/assets/frog.png" 40 42)
          (map (moveCar 0) (cars initialState))
          (map (moveLog 0) (logs initialState))
          (map (moveTurtle 0) (turtles initialState))
          (filledSpaces initialState)
          [Some 2%Z] 100 300 0 true.


(** The initial layout with all five slots recorded and the high score one
    award behind the score. *)
Definition rolloverState : State :=
  mkState (frog initialState) (cars initialState) (logs initialState)
          (turtles initialState) (filledSpaces initialState)
          allSlots 500 400 0 false.

(** The player standing in the middle target slot, which is already filled. *)
Definition homeState : State :=
  mkState (mkFrog "FROG" 279 51 "../frogger/assets/frog.png" 40 42)
          (cars initialState) (logs initialState) (turtles initialState)
          (filledSpaces initialState) [Some 2%Z] 100 0 0 false.

(** A round of play: step sideways to a slot's column, hop up the eight
    rows to the goal row, and let the clock tick. *)
Definition fillSlot (sideways : list Event) (signal : nat) : list Event :=
  sideways ++ repeat moveUp 8 ++ [Tick (Q_of_nat signal)].

(** Five rounds that fill the five slots. *)
Definition fillAll : list Event :=
  fillSlot [] 0
  ++ fillSlot (repeat moveLeft 3) 1
  ++ fillSlot (repeat moveLeft 6) 2
  ++ fillSlot (repeat moveRight 3) 3
  ++ fillSlot (repeat moveRight 6) 4.

(** Four ticks at the start, three steps left and one up onto the first
    road row, and a fifth tick. *)
Definition meetCar : list Event :=
  [Tick 0; Tick 1; Tick 2; Tick 3; moveLeft; moveLeft; moveLeft; moveUp; Tick 4].

(** ** Notions used by the further properties *)

(** The body each factory builds for column [col]: the record literals
    [newCar], [newLog], [newTurtle] and [newFilledSpace]. *)
Definition carAt (row : Z) (col : nat) : Body :=
  mkBody
    (mkFrog ("CAR" ++ str_of_Z row ++ "-" ++ str_of_nat col)
            (Q_of_nat col * CONSTANTS.OBJECT_WIDTH)
            (if (row =? 3)%Z then CONSTANTS.ROW_3
             else if (row =? 2)%Z then CONSTANTS.ROW_2 else CONSTANTS.ROW_1)
            (if (row =? 3)%Z then "../frogger/assets/car3.png"
             else if (row =? 2)%Z then "../frogger/assets/car2.png"
             else "../frogger/assets/car1.png")
            CONSTANTS.CAR_WIDTH CONSTANTS.CAR_HEIGHT)
    (Z.rem row 2 =? 0)%Z.

Definition logAt (row : Z) (col : nat) : Body :=
  mkBody
    (mkFrog ("LOG" ++ str_of_Z row ++ "-" ++ str_of_nat col)
            (Q_of_nat col * CONSTANTS.OBJECT_WIDTH)
            (if (row =? 2)%Z then CONSTANTS.ROW_6 else CONSTANTS.ROW_4)
            "../frogger/assets/log.png"
            CONSTANTS.LOG_WIDTH CONSTANTS.LOG_HEIGHT)
    false.

Definition turtleAt (col : nat) : Body :=
  mkBody
    (mkFrog ("TURTLE-" ++ str_of_nat col)
            (Q_of_nat col * CONSTANTS.OBJECT_WIDTH)
            CONSTANTS.ROW_5
            "../frogger/assets/turtles.png"
            CONSTANTS.TURTLE_WIDTH CONSTANTS.TURTLE_HEIGHT)
    true.

Definition slotAt (col : nat) : Body :=
  mkBody
    (mkFrog ("FILLED" ++ str_of_nat col)
            ((CONSTANTS.FROG_START_X - 6 * CONSTANTS.FROG_STEP_X)
             + Q_of_nat col * CONSTANTS.BUSH_WIDTH - CONSTANTS.BUSH_WIDTH)
            CONSTANTS.ROW_7
            "../frogger/assets/frog.png"
            CONSTANTS.FROG_WIDTH CONSTANTS.FROG_HEIGHT)
    false.

(** The columns [col], [col - 1], ..., 1, in the order the factories append. *)
Definition columns (col : nat) : list nat := rev (seq 1 col).

(** What motion never touches in a body: everything but x. *)
Definition layoutOf (b : Body) : string * Q * Q * Q * string * bool :=
  (id b, y b, width b, height b, img b, leftDirection b).

Definition sameLayout (s : State) : Prop :=
  map layoutOf (cars s) = map layoutOf (cars initialState)
  /\ map layoutOf (logs s) = map layoutOf (logs initialState)
  /\ map layoutOf (turtles s) = map layoutOf (turtles initialState)
  /\ filledSpaces s = filledSpaces initialState.

(** A body that shows on the canvas or waits at its right edge. *)
Definition inBand (b : Body) : Prop :=
  - width b < x b /\ x b <= CONSTANTS.CANVAS_SIZE.

(** Distance of a slot from the player, as [nearestObject] measures it. *)
Definition distanceTo (s : State) (b : Body) : Q := Qabs (x b - x (frog s)).

(** ** Boolean comparisons as propositions *)

Lemma Qltb_lt (a b : Q) : Qltb a b = true <-> a < b.
Proof.
  unfold Qltb. rewrite negb_true_iff.
  split; intro H.
  - apply Qnot_le_lt. intro L. apply Qle_bool_iff in L. congruence.
  - destruct (Qle_bool b a) eqn:E; [|reflexivity].
    apply Qle_bool_iff in E. exfalso. apply (Qlt_not_le _ _ H E).
Qed.

Lemma Qltb_ge (a b : Q) : Qltb a b = false <-> b <= a.
Proof.
  unfold Qltb. rewrite negb_false_iff. apply Qle_bool_iff.
Qed.

Lemma Qleb_le (a b : Q) : Qle_bool a b = true <-> a <= b.
Proof. apply Qle_bool_iff. Qed.

Lemma Qleb_gt (a b : Q) : Qle_bool a b = false <-> b < a.
Proof.
  split; intro H.
  - apply Qnot_le_lt. intro L. apply Qle_bool_iff in L. congruence.
  - destruct (Qle_bool a b) eqn:E; [|reflexivity].
    apply Qle_bool_iff in E. exfalso. apply (Qlt_not_le _ _ H E).
Qed.

Lemma Qeqb_eq (a b : Q) : Qeq_bool a b = true <-> a == b.
Proof. apply Qeq_bool_iff. Qed.

Lemma Qeqb_neq (a b : Q) : Qeq_bool a b = false <-> ~ a == b.
Proof.
  split; intro H.
  - intro E. apply Qeq_bool_iff in E. congruence.
  - destruct (Qeq_bool a b) eqn:E; [|reflexivity].
    apply Qeq_bool_iff in E. contradiction.
Qed.

Ltac props :=
  repeat match goal with
  | H : andb _ _ = true |- _ => apply andb_true_iff in H; destruct H
  | H : orb _ _ = false |- _ => apply orb_false_iff in H; destruct H
  | H : negb _ = true |- _ => apply negb_true_iff in H
  | H : negb _ = false |- _ => apply negb_false_iff in H
  | H : Qltb _ _ = true |- _ => apply Qltb_lt in H
  | H : Qltb _ _ = false |- _ => apply Qltb_ge in H
  | H : Qle_bool _ _ = true |- _ => apply Qleb_le in H
  | H : Qle_bool _ _ = false |- _ => apply Qleb_gt in H
  | H : Qeq_bool _ _ = true |- _ => apply Qeqb_eq in H
  | H : Qeq_bool _ _ = false |- _ => apply Qeqb_neq in H
  end.

Ltac consts :=
  unfold getXCoord, CONSTANTS.CANVAS_SIZE, CONSTANTS.FROG_START_X,
    CONSTANTS.FROG_START_Y, CONSTANTS.FROG_STEP_X, CONSTANTS.FROG_STEP_Y,
    CONSTANTS.ROW_7, CONSTANTS.ROW_6, CONSTANTS.ROW_4 in *.

(** Linear arithmetic over [Q] once the halves and quarters are literals. *)
Ltac qlin :=
  unfold Qdiv in *;
  change (/ 2) with (1 # 2) in *; change (/ 4) with (1 # 4) in *;
  lra.

(** ** Game-over tick *)

(** C1. A tick delivered to a snapshot whose game-over flag is set returns
    the initial snapshot (player at the start, rebuilt cars, logs, turtles and
    target slots, no filled index, score 0, level 0, flag cleared) with the
    high score of the incoming snapshot; nothing is advanced. *)
Theorem tick_gameOver_resets (s : State) (num : Q) :
  gameOver s = true ->
  reduceState s (Tick num) = Some (with_highscore initialState (highscore s)).
Proof.
  intro Hover. cbn [reduceState]. unfold tick. rewrite Hover. reflexivity.
Qed.

Lemma tick_gameOver_resets_witness :
  reduceState crashedState (Tick 7) = Some (with_highscore initialState 300).
Proof.
  apply (tick_gameOver_resets crashedState 7). reflexivity.
Defined.

(** [Restart] returns the same snapshot. *)
Lemma restart_resets (s : State) (val : bool) :
  reduceState s (Restart val) = Some (with_highscore initialState (highscore s)).
Proof. reflexivity. Qed.

(** ** Torus wrap *)

Lemma wrap_x (b : Body) (left : bool) (speed : Q) :
  x (wrap b left speed) =
  if left then
    if Qle_bool CONSTANTS.CANVAS_SIZE (x b + speed) then - width b / 2 else x b + speed
  else
    if Qle_bool (x b + speed) (- width b)
    then CONSTANTS.CANVAS_SIZE - width b / 2 else x b + speed.
Proof. destruct left; reflexivity. Qed.

Lemma wrap_keeps (b : Body) (left : bool) (speed : Q) :
  id (wrap b left speed) = id b /\ y (wrap b left speed) = y b
  /\ width (wrap b left speed) = width b
  /\ leftDirection (wrap b left speed) = leftDirection b.
Proof. destruct left; repeat split. Qed.




(** In the game every velocity points the way the body travels, so a body
    that has not passed the edge behind it stays on the canvas. *)
Lemma wrap_travelling (b : Body) (left : bool) (speed : Q) :
  0 < width b ->
  (if left then 0 <= speed /\ - width b < x b
   else speed < 0 /\ x b <= CONSTANTS.CANVAS_SIZE) ->
  entirelyOutside (wrap b left speed) = false.
Proof.
  intros Hw Hdir. unfold entirelyOutside.
  destruct (wrap_keeps b left speed) as (_ & _ & Ew & _). rewrite Ew, wrap_x.
  apply orb_false_iff. consts.
  destruct left.
  - destruct (Qle_bool 600 (x b + speed)) eqn:E; props;
      split; apply Qleb_gt; qlin.
  - destruct (Qle_bool (x b + speed) (- width b)) eqn:E; props;
      split; apply Qleb_gt; qlin.
Qed.

(** The three steps [tick] applies, at any level from 0 up. *)
Lemma tick_motion_on_canvas (m : Q) (b : Body) :
  0 <= m -> 0 < width b ->
  - width b < x b -> x b <= CONSTANTS.CANVAS_SIZE ->
  entirelyOutside (moveCar m b) = false
  /\ entirelyOutside (moveLog m b) = false
  /\ entirelyOutside (moveTurtle m b) = false.
Proof.
  intros Hm Hw Hlo Hhi.
  unfold moveCar, moveLog, moveTurtle.
  repeat split;
    repeat match goal with |- context [if ?c then _ else _] => destruct c end;
    apply wrap_travelling; try assumption;
    unfold CONSTANTS.CAR1_SPEED, CONSTANTS.CAR2_SPEED, CONSTANTS.CAR3_SPEED,
      CONSTANTS.LOG1_SPEED, CONSTANTS.LOG2_SPEED, CONSTANTS.TURTLE_SPEED;
    lra.
Qed.

(** ** The reducer returns on every well-formed snapshot *)

Lemma reduce_In {A : Type} (f : A -> A -> A) (l : list A) (a : A) :
  (forall u v, f u v = u \/ f u v = v) ->
  reduce f l = Some a -> In a l.
Proof.
  intros Hf. destruct l as [|first rest]; [discriminate|].
  cbn [reduce]. intro H. injection H as <-.
  revert first. induction rest as [|r rest IH]; intro first.
  - left. reflexivity.
  - cbn [fold_left]. destruct (IH (f first r)) as [E|Hin].
    + rewrite <- E. destruct (Hf first r) as [-> | ->];
        [left; reflexivity | right; left; reflexivity].
    + right. right. exact Hin.
Qed.

Lemma nearestObject_In (s : State) (o : Body) :
  nearestObject s = Some o -> In o (filledSpaces s).
Proof.
  apply reduce_In. intros u v.
  destruct (Qltb _ _); [right | left]; reflexivity.
Qed.

Lemma nearestObject_defined (s : State) :
  filledSpaces s = createFilledSpaces CONSTANTS.TARGET_COUNT [] ->
  exists o, nearestObject s = Some o.
Proof.
  intro Hs. unfold nearestObject. rewrite Hs.
  cbn [CONSTANTS.TARGET_COUNT createFilledSpaces app reduce]. eauto.
Qed.

Lemma nonEmpty_filter_nth {A : Type} (p : A -> bool) (l : list A) :
  nonEmpty (filter p l) = true -> exists a, nth_error l 0 = Some a.
Proof.
  destruct l as [|a l]; [discriminate | intros _; exists a; reflexivity].
Qed.

Lemma nth_error_defined {A : Type} (l : list A) (i : nat) :
  (i < List.length l)%nat -> exists a, nth_error l i = Some a.
Proof.
  intro Hi. destruct (nth_error l i) eqn:E; [eauto|].
  apply nth_error_None in E. lia.
Qed.

Lemma updateScore_defined (s : State) :
  well_formed s -> exists v, updateScore s = Some v.
Proof.
  intros [Hs _]. unfold updateScore, and_then, checkFilled.
  destruct (nearestObject_defined s Hs) as [o ->].
  destruct (inTarget s); [destruct (negb _)|]; eauto.
Qed.

Lemma updateFilledInd_defined (s : State) :
  well_formed s -> exists l, updateFilledInd s = Some l.
Proof.
  intros [Hs _]. unfold updateFilledInd.
  destruct (nearestObject_defined s Hs) as [o ->].
  destruct (inTarget s); eauto.
Qed.

Lemma tickFrog_defined (s : State) (m : Q) :
  well_formed s -> exists f, tickFrog s m = Some f.
Proof.
  intros [_ Hl]. unfold tickFrog, and_then, sameRowAs.
  destruct (inTarget s); [eauto|].
  destruct (nth_error_defined (logs s) 0) as [l0 ->]; [lia|].
  destruct (nth_error_defined (logs s) 3) as [l3 ->]; [lia|].
  destruct (frogOnLog s).
  - destruct (Qeq_bool _ (y l0)); [eauto|].
    destruct (Qeq_bool _ (y l3)); [eauto|].
    destruct (frogOnTurtle s) eqn:Ht; [|eauto].
    destruct (nonEmpty_filter_nth _ _ Ht) as [t0 ->].
    destruct (Qeq_bool _ (y t0)); eauto.
  - destruct (frogOnTurtle s) eqn:Ht; [|eauto].
    destruct (nonEmpty_filter_nth _ _ Ht) as [t0 ->].
    destruct (Qeq_bool _ (y t0)); eauto.
Qed.

Lemma tick_defined (s : State) :
  well_formed s -> exists s', tick s = Some s'.
Proof.
  intro Hwf. unfold tick.
  destruct (updateScore_defined s Hwf) as [v ->].
  destruct (updateFilledInd_defined s Hwf) as [l ->].
  destruct (tickFrog_defined s (level s * CONSTANTS.SPEED_INCREASE) Hwf) as [f ->].
  destruct (gameOver s); [eauto|].
  destruct (_ <? _)%nat; eauto.
Qed.

Lemma reduceState_defined (s : State) (e : Event) :
  well_formed s -> exists s', reduceState s e = Some s'.
Proof.
  intro Hwf. destruct e; cbn [reduceState]; eauto using tick_defined.
Qed.

Lemma tick_shape (s s' : State) :
  tick s = Some s' ->
  filledSpaces s' = filledSpaces s /\ List.length (logs s') = List.length (logs s)
  \/ s' = resetState s.
Proof.
  unfold tick. intro H.
  destruct (gameOver s); [right; congruence|].
  destruct (updateScore s); [|destruct (_ <? _)%nat; discriminate].
  destruct (tickFrog s _); [|destruct (_ <? _)%nat; discriminate].
  destruct (_ <? _)%nat.
  - destruct (updateFilledInd s); [|discriminate].
    injection H as <-. left. cbn. now rewrite length_map.
  - injection H as <-. left. cbn. now rewrite length_map.
Qed.

Lemma well_formed_initial : well_formed initialState.
Proof. split; [reflexivity | cbn; lia]. Qed.

Lemma well_formed_reset (s : State) : well_formed (resetState s).
Proof. split; [reflexivity | cbn; lia]. Qed.

Lemma reduceState_well_formed (s s' : State) (e : Event) :
  well_formed s -> reduceState s e = Some s' -> well_formed s'.
Proof.
  intros [Hs Hl] H. destruct e; cbn [reduceState] in H.
  - destruct (tick_shape s s' H) as [[Es El] | ->].
    + split; [congruence | lia].
    + apply well_formed_reset.
  - injection H as <-. split; assumption.
  - injection H as <-. apply well_formed_reset.
Qed.

Lemma reachable_well_formed (P : Event -> Prop) (s : State) :
  reachable_by P s -> well_formed s.
Proof.
  induction 1 as [|s s' e _ IH _ Hstep].
  - apply well_formed_initial.
  - exact (reduceState_well_formed s s' e IH Hstep).
Qed.

(** Every finite prefix of the event stream yields a snapshot. *)
Lemma scan_defined (events : list Event) (s : State) :
  well_formed s -> exists s', scan s events = Some s' /\ well_formed s'.
Proof.
  revert s. induction events as [|e rest IH]; intros s Hwf.
  - exists s. split; [reflexivity | assumption].
  - cbn [scan]. destruct (reduceState_defined s e Hwf) as [s1 E1]. rewrite E1.
    apply IH. exact (reduceState_well_formed s s1 e Hwf E1).
Qed.

(** ** Move *)

Lemma illegalMove_x (xPos : Q) :
  illegalMove xPos CONSTANTS.FROG_START_Y = outLeftBound xPos || outRightBound xPos.
Proof.
  unfold illegalMove.
  replace (outUpBound CONSTANTS.FROG_START_Y) with false by reflexivity.
  replace (outDownBound CONSTANTS.FROG_START_Y) with false by reflexivity.
  now rewrite !orb_false_r.
Qed.

Lemma illegalMove_y (yPos : Q) :
  illegalMove CONSTANTS.FROG_START_X yPos = outUpBound yPos || outDownBound yPos.
Proof.
  unfold illegalMove.
  replace (outLeftBound CONSTANTS.FROG_START_X) with false by reflexivity.
  replace (outRightBound CONSTANTS.FROG_START_X) with false by reflexivity.
  reflexivity.
Qed.

(** C6. A move commits each axis on its own: x becomes [x + dx] unless that
    is left of the left bound or at or beyond the right bound, y becomes
    [y + dy] unless that is above the top row or at or beyond the bottom
    bound; a rejected axis keeps its coordinate, and nothing else in the
    snapshot changes. *)
Theorem move_axes_independent (s : State) (dx dy : Q) :
  exists s', reduceState s (Move dx dy) = Some s'
    /\ x (frog s') =
       (if outLeftBound (x (frog s) + dx) || outRightBound (x (frog s) + dx)
        then x (frog s) else x (frog s) + dx)
    /\ y (frog s') =
       (if outUpBound (y (frog s) + dy) || outDownBound (y (frog s) + dy)
        then y (frog s) else y (frog s) + dy)
    /\ id (frog s') = id (frog s) /\ img (frog s') = img (frog s)
    /\ width (frog s') = width (frog s) /\ height (frog s') = height (frog s)
    /\ cars s' = cars s /\ logs s' = logs s /\ turtles s' = turtles s
    /\ filledSpaces s' = filledSpaces s
    /\ filledSpacesIndex s' = filledSpacesIndex s
    /\ score s' = score s /\ highscore s' = highscore s
    /\ level s' = level s /\ gameOver s' = gameOver s.
Proof.
  eexists. split; [reflexivity|].
  cbn [frog with_frog with_xy x y].
  rewrite illegalMove_x, illegalMove_y.
  repeat split.
Qed.

(** The bounds of the play field, as inequalities. *)
Lemma move_bounds (v : Q) :
  (outLeftBound v || outRightBound v = false <-> 21 <= v /\ v < 580)
  /\ (outUpBound v || outDownBound v = false <-> 51 <= v /\ v < 582).
Proof.
  unfold outLeftBound, outRightBound, outUpBound, outDownBound.
  split; (split; [intro H; props; consts; lra
                 | intros [H1 H2]; apply orb_false_iff; split;
                   [apply Qltb_ge | apply Qleb_gt]; consts; lra]).
Qed.

(** A diagonal request from the goal row: the step up is rejected, the step
    to the right is taken. *)
Example move_up_rejected_right_taken :
  option_map (fun s' => (x (frog s'), y (frog s'))) (reduceState homeState (Move 43 (-59)))
  = Some (279 + 43, 51).
Proof. reflexivity. Qed.

(** ** High score *)

Lemma newHighscore_ge (s : State) : highscore s <= newHighscore s.
Proof.
  unfold newHighscore. destruct (Qle_bool _ _) eqn:E; props; lra.
Qed.

Lemma tick_highscore (s s' : State) :
  tick s = Some s' ->
  highscore s' = (if gameOver s then highscore s else newHighscore s).
Proof.
  unfold tick. intro H.
  destruct (gameOver s); [injection H as <-; reflexivity|].
  destruct (updateScore s); [|destruct (_ <? _)%nat; discriminate].
  destruct (tickFrog s _); [|destruct (_ <? _)%nat; discriminate].
  destruct (_ <? _)%nat.
  - destruct (updateFilledInd s); [|discriminate].
    injection H as <-. reflexivity.
  - injection H as <-. reflexivity.
Qed.

(** C7. Whatever the event, the snapshot the reducer returns has a high
    score at least that of the incoming snapshot; and the reducer does
    return one on every well-formed snapshot. *)
Theorem highscore_monotone (s : State) (e : Event) :
  (forall s', reduceState s e = Some s' -> highscore s <= highscore s')
  /\ (well_formed s -> exists s', reduceState s e = Some s').
Proof.
  split; [|apply reduceState_defined].
  intros s' H. destruct e; cbn [reduceState] in H.
  - rewrite (tick_highscore s s' H).
    destruct (gameOver s); [lra | apply newHighscore_ge].
  - injection H as <-. cbn. lra.
  - injection H as <-. cbn. lra.
Qed.

Lemma highscore_monotone_witness :
  exists s', reduceState rolloverState (Tick 0) = Some s'
    /\ highscore rolloverState <= highscore s'.
Proof.
  destruct (highscore_monotone rolloverState (Tick 0)) as [Hmono Hret].
  destruct Hret as [s' E]; [split; [reflexivity | cbn; lia]|].
  exists s'. split; [exact E | exact (Hmono s' E)].
Defined.

(** ** Filling target slots *)

Lemma sameValueZero_eq (a b : option Z) : sameValueZero a b = true <-> a = b.
Proof.
  destruct a as [m|], b as [n|]; cbn; split; try congruence; try discriminate.
  - intro H. apply Z.eqb_eq in H. congruence.
  - intro H. injection H as ->. apply Z.eqb_refl.
Qed.

Lemma includes_In (l : list (option Z)) (v : option Z) :
  includes l v = true <-> In v l.
Proof.
  unfold includes. rewrite existsb_exists. split.
  - intros (a & Hin & E). apply sameValueZero_eq in E. now subst.
  - intro Hin. exists v. split; [assumption | now apply sameValueZero_eq].
Qed.

Lemma includes_not_In (l : list (option Z)) (v : option Z) :
  includes l v = false <-> ~ In v l.
Proof.
  rewrite <- includes_In. destruct (includes l v); split; congruence.
Qed.

Lemma inTarget_row (s : State) :
  inTarget s = true -> y (frog s) == CONSTANTS.ROW_7.
Proof. unfold inTarget. intro H. props. assumption. Qed.

(** C8. When the index of the nearest slot is already recorded, as it is for
    a player standing in a slot filled earlier, the fill update returns the
    recorded indices as they are, with no duplicate added, and the score
    update returns the score as it is: no second award of 100 points.  This
    holds in the target row and, trivially, outside it. *)
Theorem fill_idempotent (s : State) (o : Body) :
  nearestObject s = Some o ->
  In (targetIndexOf o) (filledSpacesIndex s) ->
  updateFilledInd s = Some (filledSpacesIndex s)
  /\ updateScore s = Some (score s).
Proof.
  intros Hnear Hin. apply includes_In in Hin.
  unfold updateFilledInd, updateScore, and_then, checkFilled.
  rewrite Hnear, Hin, app_nil_r.
  destruct (inTarget s); split; reflexivity.
Qed.

Lemma fill_idempotent_witness :
  inTarget homeState = true
  /\ updateFilledInd homeState = Some [Some 2%Z]
  /\ updateScore homeState = Some 100.
Proof.
  split; [reflexivity|].
  eapply (fill_idempotent homeState).
  - vm_compute. reflexivity.
  - left. reflexivity.
Defined.

(** Calling the fill update a second time, on the indices the first call
    returned, changes neither the indices nor the score. *)
Lemma fill_twice (s : State) (l : list (option Z)) :
  updateFilledInd s = Some l ->
  updateFilledInd (with_filledSpacesIndex s l) = Some l
  /\ updateScore (with_filledSpacesIndex s l) = Some (score s).
Proof.
  unfold updateFilledInd, updateScore, and_then, checkFilled.
  change (inTarget (with_filledSpacesIndex s l)) with (inTarget s).
  change (nearestObject (with_filledSpacesIndex s l)) with (nearestObject s).
  cbn [filledSpacesIndex score with_filledSpacesIndex].
  destruct (inTarget s); [|intro H; injection H as <-; split; reflexivity].
  destruct (nearestObject s) as [o|]; [|discriminate].
  intro H. injection H as <-.
  assert (Hin : includes (filledSpacesIndex s ++
            (if includes (filledSpacesIndex s) (targetIndexOf o)
             then [] else [targetIndexOf o])) (targetIndexOf o) = true).
  { apply includes_In, in_or_app.
    destruct (includes _ _) eqn:E; [left; now apply includes_In | right; now left]. }
  rewrite Hin, app_nil_r. split; reflexivity.
Qed.

(** The first time a slot is entered its index is appended and 100 points
    are awarded. *)
Lemma fill_fresh (s : State) (o : Body) :
  inTarget s = true ->
  nearestObject s = Some o ->
  ~ In (targetIndexOf o) (filledSpacesIndex s) ->
  updateFilledInd s = Some (filledSpacesIndex s ++ [targetIndexOf o])
  /\ updateScore s = Some (score s + 100).
Proof.
  intros Ht Hnear Hin. apply includes_not_In in Hin.
  unfold updateFilledInd, updateScore, and_then, checkFilled.
  rewrite Ht, Hnear, Hin. split; reflexivity.
Qed.

(** ** The filled-index invariant *)

Lemma slot_targetIndex (o : Body) :
  In o (createFilledSpaces CONSTANTS.TARGET_COUNT []) -> slot_index (targetIndexOf o).
Proof.
  cbn [CONSTANTS.TARGET_COUNT createFilledSpaces app In].
  intros [<- | [<- | [<- | [<- | [<- | []]]]]];
    eexists; (split; [vm_compute; reflexivity | lia]).
Qed.

Lemma filled_ok_nil : filled_ok [].
Proof. split; [intros v [] | constructor]. Qed.

Lemma updateFilledInd_ok (s : State) (l : list (option Z)) :
  slots_inv s -> updateFilledInd s = Some l -> filled_ok l.
Proof.
  intros [Hs [Hrange Hnd]]. unfold updateFilledInd.
  destruct (inTarget s); [|intro H; injection H as <-; split; assumption].
  destruct (nearestObject s) as [o|] eqn:Hnear; [|discriminate].
  intro H. injection H as <-.
  destruct (includes _ _) eqn:E.
  - rewrite app_nil_r. split; assumption.
  - apply includes_not_In in E. split.
    + intros v Hv. apply in_app_or in Hv. destruct Hv as [Hv | [<- | []]].
      * now apply Hrange.
      * apply slot_targetIndex. rewrite <- Hs. now apply nearestObject_In.
    + apply NoDup_app; [assumption | repeat constructor; intros [] |].
      intros a Ha [<- | []]. contradiction.
Qed.

Lemma tick_filled (s s' : State) :
  tick s = Some s' ->
  filledSpaces s' = filledSpaces s
  /\ (filledSpacesIndex s' = [] \/ updateFilledInd s = Some (filledSpacesIndex s'))
  \/ s' = resetState s.
Proof.
  unfold tick. intro H.
  destruct (gameOver s); [right; congruence|].
  destruct (updateScore s); [|destruct (_ <? _)%nat; discriminate].
  destruct (tickFrog s _); [|destruct (_ <? _)%nat; discriminate].
  destruct (_ <? _)%nat.
  - destruct (updateFilledInd s); [|discriminate].
    injection H as <-. left. split; [reflexivity | right; reflexivity].
  - injection H as <-. left. split; [reflexivity | left; reflexivity].
Qed.

Lemma slots_inv_reset (s : State) : slots_inv (resetState s).
Proof. split; [reflexivity | apply filled_ok_nil]. Qed.

Lemma reduceState_slots_inv (s s' : State) (e : Event) :
  slots_inv s -> reduceState s e = Some s' -> slots_inv s'.
Proof.
  intros Hinv H. destruct e; cbn [reduceState] in H.
  - destruct (tick_filled s s' H) as [[Es [E | E]] | ->].
    + split; [destruct Hinv; congruence | rewrite E; apply filled_ok_nil].
    + split; [destruct Hinv; congruence | exact (updateFilledInd_ok s _ Hinv E)].
    + apply slots_inv_reset.
  - injection H as <-. exact Hinv.
  - injection H as <-. apply slots_inv_reset.
Qed.

(** C9. In every snapshot reachable from the initial one, whatever the
    events, the recorded slot indices lie in 0..4 and are pairwise distinct;
    and every step of the reducer preserves this, together with the five
    target slots the indices are read from. *)
Theorem filled_indices_invariant :
  (forall s, reachable_by any_event s ->
     (forall v, In v (filledSpacesIndex s) ->
        exists i : Z, v = Some i /\ (0 <= i <= 4)%Z)
     /\ NoDup (filledSpacesIndex s))
  /\ (forall s e s', slots_inv s -> reduceState s e = Some s' -> slots_inv s').
Proof.
  split; [|intros s e s'; apply reduceState_slots_inv].
  intros s Hreach.
  assert (Hinv : slots_inv s).
  { induction Hreach as [|s s' e _ IH _ Hstep].
    - split; [reflexivity | apply filled_ok_nil].
    - exact (reduceState_slots_inv s s' e IH Hstep). }
  exact (proj2 Hinv).
Qed.

Lemma scan_reachable (P : Event -> Prop) (events : list Event) (s s' : State) :
  reachable_by P s -> Forall P events -> scan s events = Some s' ->
  reachable_by P s'.
Proof.
  revert s. induction events as [|e rest IH]; intros s Hs HP H.
  - cbn in H. injection H as <-. exact Hs.
  - cbn [scan] in H. destruct (reduceState s e) as [s1|] eqn:E; [|discriminate].
    inversion HP as [|? ? He Hrest]; subst.
    apply (IH s1); [exact (reach_step P s s1 e Hs He E) | exact Hrest | exact H].
Qed.

Lemma filled_indices_invariant_witness :
  exists s, scan initialState (fillSlot (repeat moveLeft 3) 0) = Some s
    /\ filledSpacesIndex s = [Some 1%Z]
    /\ NoDup (filledSpacesIndex s).
Proof.
  eexists. split; [vm_compute; reflexivity|]. split; [reflexivity|].
  apply (proj1 filled_indices_invariant).
  apply (scan_reachable any_event (fillSlot (repeat moveLeft 3) 0) initialState).
  - apply reach_init.
  - repeat constructor.
  - vm_compute. reflexivity.
Defined.

(** ** Level rollover *)

Lemma allSlots_length (l : list (option Z)) :
  (forall v, In v allSlots -> In v l) -> (5 <= List.length l)%nat.
Proof.
  intro Hall.
  change 5%nat with (List.length allSlots).
  apply NoDup_incl_length; [|exact Hall].
  unfold allSlots.
  repeat (constructor; [cbn; intuition discriminate|]). constructor.
Qed.

Lemma slot_index_allSlots (v : option Z) : slot_index v -> In v allSlots.
Proof.
  intros (i & -> & Hi). unfold allSlots. cbn.
  assert (i = 0 \/ i = 1 \/ i = 2 \/ i = 3 \/ i = 4)%Z as Hc by lia.
  intuition (subst; auto).
Qed.

Lemma updateScore_recorded (s : State) :
  filledSpaces s = createFilledSpaces CONSTANTS.TARGET_COUNT [] ->
  (forall v, In v allSlots -> In v (filledSpacesIndex s)) ->
  updateScore s = Some (score s).
Proof.
  intros Hs Hall. unfold updateScore, and_then, checkFilled.
  destruct (nearestObject_defined s Hs) as [o Hnear]. rewrite Hnear.
  assert (Hin : includes (filledSpacesIndex s) (targetIndexOf o) = true).
  { apply includes_In, Hall, slot_index_allSlots, slot_targetIndex.
    rewrite <- Hs. now apply nearestObject_In. }
  rewrite Hin. destruct (inTarget s); reflexivity.
Qed.

Lemma tick_full (s : State) :
  gameOver s = false ->
  (5 <= List.length (filledSpacesIndex s))%nat ->
  tick s =
  (newScore <- updateScore s ;;
   newFrog <- tickFrog s (level s * CONSTANTS.SPEED_INCREASE) ;;
   Some (handleCollisions {|
     frog := newFrog;
     cars := map (moveCar (level s * CONSTANTS.SPEED_INCREASE)) (cars s);
     logs := map (moveLog (level s * CONSTANTS.SPEED_INCREASE)) (logs s);
     turtles := map (moveTurtle (level s * CONSTANTS.SPEED_INCREASE)) (turtles s);
     filledSpaces := filledSpaces s;
     filledSpacesIndex := [];
     score := newScore;
     highscore := newHighscore s;
     level := level s + 1;
     gameOver := gameOver s;
   |})).
Proof.
  intros Hover Hfull. unfold tick. rewrite Hover.
  destruct (_ <? _)%nat eqn:E; [|reflexivity].
  apply Nat.ltb_lt in E. lia.
Qed.

(** C3, as the code has it.  A tick on a well-formed, non-game-over snapshot
    in which all five slot indices are recorded returns a snapshot whose
    level is one more, whose recorded indices are empty and whose score is
    the same; the high score gets the update of every tick: it becomes the
    incoming score when that is at least the high score, and stays otherwise. *)
Theorem tick_rollover (s : State) :
  well_formed s ->
  gameOver s = false ->
  (forall v, In v allSlots -> In v (filledSpacesIndex s)) ->
  exists s', tick s = Some s'
    /\ level s' = level s + 1
    /\ filledSpacesIndex s' = []
    /\ score s' = score s
    /\ (highscore s <= score s -> highscore s' = score s)
    /\ (score s < highscore s -> highscore s' = highscore s).
Proof.
  intros Hwf Hover Hall.
  rewrite (tick_full s Hover (allSlots_length _ Hall)).
  rewrite (updateScore_recorded s (proj1 Hwf) Hall).
  destruct (tickFrog_defined s (level s * CONSTANTS.SPEED_INCREASE) Hwf) as [f ->].
  eexists. split; [reflexivity|].
  cbn [level filledSpacesIndex score highscore handleCollisions with_gameOver].
  unfold newHighscore. repeat split.
  - intro Hle. apply Qleb_le in Hle. now rewrite Hle.
  - intro Hlt. apply Qleb_gt in Hlt. now rewrite Hlt.
Qed.

Lemma tick_rollover_witness :
  exists s', tick rolloverState = Some s'
    /\ level s' = 0 + 1 /\ filledSpacesIndex s' = [] /\ score s' = 500
    /\ highscore s' = 500.
Proof.
  destruct (tick_rollover rolloverState) as (s' & E & Hl & Hi & Hs & Hh & _).
  - split; [reflexivity | cbn; lia].
  - reflexivity.
  - intros v Hv. exact Hv.
  - exists s'. repeat split; try assumption.
    apply Hh. vm_compute. discriminate.
Defined.

(** C3, as the specification has it, fails on the snapshot reached by
    filling all five slots: the rollover tick raises the high score from 400
    to 500. *)
Lemma rollover_raises_highscore :
  exists s s', scan initialState fillAll = Some s
    /\ gameOver s = false
    /\ (forall v, In v allSlots -> In v (filledSpacesIndex s))
    /\ reduceState s (Tick 5) = Some s'
    /\ highscore s == 400 /\ highscore s' == 500
    /\ ~ highscore s' == highscore s.
Proof.
  eexists. eexists.
  split; [vm_compute; reflexivity|].
  split; [reflexivity|].
  split; [cbn; intuition|].
  split; [vm_compute; reflexivity|].
  repeat split; vm_compute; discriminate.
Qed.

(** C4, as the code has it.  On a tick that finds the recorded indices full,
    cars, logs and turtles are each advanced by their wrap step at the speed
    of the incoming level, and the target slots are carried over; nothing is
    rebuilt. *)
Theorem tick_rollover_moves (s : State) :
  well_formed s ->
  gameOver s = false ->
  (5 <= List.length (filledSpacesIndex s))%nat ->
  exists s', tick s = Some s'
    /\ cars s' = map (moveCar (level s * CONSTANTS.SPEED_INCREASE)) (cars s)
    /\ logs s' = map (moveLog (level s * CONSTANTS.SPEED_INCREASE)) (logs s)
    /\ turtles s' = map (moveTurtle (level s * CONSTANTS.SPEED_INCREASE)) (turtles s)
    /\ filledSpaces s' = filledSpaces s.
Proof.
  intros Hwf Hover Hfull.
  rewrite (tick_full s Hover Hfull).
  destruct (updateScore_defined s Hwf) as [v ->].
  destruct (tickFrog_defined s (level s * CONSTANTS.SPEED_INCREASE) Hwf) as [f ->].
  eexists. split; [reflexivity|]. repeat split.
Qed.

Lemma tick_rollover_moves_witness :
  exists s', tick rolloverState = Some s'
    /\ cars s' = map (moveCar (0 * CONSTANTS.SPEED_INCREASE)) (cars initialState).
Proof.
  destruct (tick_rollover_moves rolloverState) as (s' & E & Hc & _).
  - split; [reflexivity | cbn; lia].
  - reflexivity.
  - cbn. lia.
  - exists s'. split; assumption.
Defined.

(** C4, as the specification has it, fails on the snapshot reached by
    filling all five slots: after the rollover tick the first car stands at
    540, one step on from 550, where a rebuilt row would have it at 600. *)
Lemma rollover_keeps_moving :
  exists s s' c0 c c', scan initialState fillAll = Some s
    /\ gameOver s = false
    /\ List.length (filledSpacesIndex s) = 5%nat
    /\ reduceState s (Tick 5) = Some s'
    /\ hd_error (cars initialState) = Some c0
    /\ hd_error (cars s) = Some c
    /\ hd_error (cars s') = Some c'
    /\ x c0 == 600 /\ x c == 550 /\ x c' == 540.
Proof.
  do 5 eexists.
  split; [vm_compute; reflexivity|].
  split; [reflexivity|].
  split; [reflexivity|].
  split; [vm_compute; reflexivity|].
  split; [reflexivity|].
  split; [reflexivity|].
  split; [reflexivity|].
  repeat split.
Qed.

(** ** Obstacle strike *)

(** What [obstacleCollision] tests: on the same row, one of the obstacle's
    two ends lies strictly inside the player's span. *)
Lemma obstacleCollision_iff (f : Frog) (o : Body) :
  obstacleCollision f o = true <->
  y f == y o
  /\ ((x f < x o /\ x o < x f + width f)
      \/ (x f < x o + width o /\ x o + width o < x f + width f)).
Proof.
  unfold obstacleCollision.
  rewrite andb_true_iff, orb_true_iff, !andb_true_iff, !Qltb_lt, Qeqb_eq.
  tauto.
Qed.

(** Partial overlap from either side is a strike. *)
Lemma obstacleCollision_overlap (f : Frog) (o : Body) :
  y f == y o ->
  (x f < x o /\ x o < x f + width f)
  \/ (x o < x f /\ x f < x o + width o /\ x o + width o < x f + width f) ->
  obstacleCollision f o = true.
Proof.
  intros Hrow Hspan. apply obstacleCollision_iff. split; [assumption|].
  destruct Hspan as [H | (H1 & H2 & H3)]; [left | right]; tauto.
Qed.

(** Spans that do not intersect are never a strike; the boundary is
    half-open, so touching ends do not count. *)
Lemma obstacleCollision_disjoint (f : Frog) (o : Body) :
  0 <= width f -> 0 <= width o ->
  x f + width f <= x o \/ x o + width o <= x f ->
  obstacleCollision f o = false.
Proof.
  intros Hf Ho Hapart.
  destruct (obstacleCollision f o) eqn:E; [|reflexivity].
  apply obstacleCollision_iff in E. exfalso. lra.
Qed.

(** A player whose span lies within the obstacle's, the two coinciding
    included, is not detected. *)
Lemma obstacleCollision_inside (f : Frog) (o : Body) :
  x o <= x f -> x f + width f <= x o + width o ->
  obstacleCollision f o = false.
Proof.
  intros Hl Hr.
  destruct (obstacleCollision f o) eqn:E; [|reflexivity].
  apply obstacleCollision_iff in E. exfalso. lra.
Qed.

(** On one row, with overlapping spans of positive width, the strike is
    missed exactly when the player's span lies within the obstacle's. *)
Lemma obstacleCollision_missed_iff (f : Frog) (o : Body) :
  y f == y o -> 0 < width f -> 0 < width o ->
  x f < x o + width o -> x o < x f + width f ->
  (obstacleCollision f o = false <->
   x o <= x f /\ x f + width f <= x o + width o).
Proof.
  intros Hrow Hf Ho H1 H2. split.
  - intro Hmiss.
    destruct (Qlt_le_dec (x f) (x o)) as [Hl | Hl].
    + rewrite (obstacleCollision_overlap f o Hrow) in Hmiss; [discriminate|].
      left. split; assumption.
    + destruct (Qlt_le_dec (x o + width o) (x f + width f)) as [Hr | Hr].
      * assert (E : obstacleCollision f o = true).
        { apply obstacleCollision_iff. split; [assumption | right; split; assumption]. }
        congruence.
      * split; assumption.
  - intros [Hl Hr]. now apply obstacleCollision_inside.
Qed.

(** C2, on the code.  After [meetCar] the player and the car CAR1-1 stand on
    the same row with the same span, from 150 to 190, yet
    [obstacleCollision] is false for them and the snapshot is not game over. *)
Theorem obstacleCollision_misses_coincident_car :
  exists s car, scan initialState meetCar = Some s
    /\ nth_error (cars s) 2 = Some car
    /\ id car = "CAR1-1"
    /\ y car == y (frog s)
    /\ x car == 150 /\ x (frog s) == 150
    /\ width car == 40 /\ width (frog s) == 40
    /\ obstacleCollision (frog s) car = false
    /\ gameOver s = false.
Proof.
  do 2 eexists.
  split; [vm_compute; reflexivity|].
  split; [reflexivity|].
  repeat split.
Qed.

(** ** The rows the player can stand on *)

Lemma frogRow_cases (v : Q) :
  frogRow v <->
  v == 523 \/ v == 464 \/ v == 405 \/ v == 346 \/ v == 287
  \/ v == 228 \/ v == 169 \/ v == 110 \/ v == 51.
Proof.
  unfold frogRow. consts. split.
  - intros (k & Hk & Hv).
    do 9 (destruct k as [|k];
          [unfold Q_of_nat in Hv; simpl Z.of_nat in Hv; unfold inject_Z in Hv;
           intuition lra|]).
    lia.
  - intros Hv.
    repeat (destruct Hv as [Hv | Hv]);
      [exists 0%nat | exists 1%nat | exists 2%nat | exists 3%nat | exists 4%nat
       | exists 5%nat | exists 6%nat | exists 7%nat | exists 8%nat];
      (split; [lia|]);
      unfold Q_of_nat; simpl Z.of_nat; unfold inject_Z; lra.
Qed.

Ltac pick_row := first [lra | left; lra | right; pick_row].

Lemma frogRow_start : frogRow (y (frog initialState)).
Proof. exists 0%nat. split; [lia | reflexivity]. Qed.

Lemma move_row (s s' : State) (dx dy : Q) :
  dy == 0 \/ dy == CONSTANTS.FROG_STEP_Y \/ dy == - CONSTANTS.FROG_STEP_Y ->
  reduceState s (Move dx dy) = Some s' ->
  frogRow (y (frog s)) -> frogRow (y (frog s')).
Proof.
  intros Hdy H Hrow. cbn [reduceState] in H. injection H as <-.
  cbn [frog with_frog with_xy y]. rewrite illegalMove_y.
  apply frogRow_cases in Hrow. apply frogRow_cases.
  unfold outUpBound, outDownBound.
  destruct (_ || _) eqn:E.
  - exact Hrow.
  - props. consts.
    destruct Hdy as [Hdy | [Hdy | Hdy]];
      repeat (destruct Hrow as [Hrow | Hrow]); first [exfalso; lra | pick_row].
Qed.

Lemma tickFrog_y (s : State) (m : Q) (f : Frog) :
  tickFrog s m = Some f -> f = frog initialState \/ y f = y (frog s).
Proof.
  unfold tickFrog. intro H.
  destruct (inTarget s); [left; congruence|]. right.
  repeat match type of H with
  | (match ?c with _ => _ end) = Some _ => destruct c; try discriminate
  end;
  injection H as <-; reflexivity.
Qed.

Lemma tick_row (s s' : State) :
  tick s = Some s' -> frogRow (y (frog s)) -> frogRow (y (frog s')).
Proof.
  unfold tick. intros H Hrow.
  destruct (gameOver s); [injection H as <-; apply frogRow_start|].
  destruct (updateScore s); [|destruct (_ <? _)%nat; discriminate].
  destruct (tickFrog s _) as [f|] eqn:Ef; [|destruct (_ <? _)%nat; discriminate].
  assert (Hf : frogRow (y f)).
  { destruct (tickFrog_y s _ f Ef) as [-> | ->]; [apply frogRow_start | exact Hrow]. }
  destruct (_ <? _)%nat.
  - destruct (updateFilledInd s); [|discriminate].
    injection H as <-. exact Hf.
  - injection H as <-. exact Hf.
Qed.

Lemma emitted_row (s s' : State) (e : Event) :
  emitted e -> reduceState s e = Some s' ->
  frogRow (y (frog s)) -> frogRow (y (frog s')).
Proof.
  intros He H Hrow. destruct He.
  - apply (move_row s s' _ _ (or_introl (Qeq_refl 0)) H Hrow).
  - apply (move_row s s' _ _ (or_introl (Qeq_refl 0)) H Hrow).
  - apply (move_row s s' _ _
             (or_intror (or_intror (Qeq_refl (- CONSTANTS.FROG_STEP_Y)))) H Hrow).
  - apply (move_row s s' _ _
             (or_intror (or_introl (Qeq_refl CONSTANTS.FROG_STEP_Y))) H Hrow).
  - cbn in H. injection H as <-. apply frogRow_start.
  - apply (tick_row s s' H Hrow).
Qed.

(** C10, as the code has it.  In every snapshot reachable from the initial
    one through the events the game emits (steps of 43 sideways and 59 up or
    down, restarts, clock ticks), the player's y is [523 - 59 * k] for some
    [k] from 0 to 8. *)
Theorem frog_row_invariant (s : State) :
  reachable_by emitted s ->
  exists k : nat, (k <= 8)%nat
    /\ y (frog s) == CONSTANTS.FROG_START_Y - CONSTANTS.FROG_STEP_Y * Q_of_nat k.
Proof.
  induction 1 as [|s s' e _ IH He Hstep].
  - apply frogRow_start.
  - exact (emitted_row s s' e He Hstep IH).
Qed.

Lemma frog_row_invariant_witness :
  exists s, scan initialState meetCar = Some s
    /\ exists k : nat, (k <= 8)%nat /\ y (frog s) == 523 - 59 * Q_of_nat k.
Proof.
  eexists. split; [vm_compute; reflexivity|].
  apply frog_row_invariant.
  apply (scan_reachable emitted meetCar initialState).
  - apply reach_init.
  - unfold meetCar.
    repeat (constructor;
            [first [exact emit_left | exact emit_up | exact (emit_tick 0)
                   | exact (emit_tick 1) | exact (emit_tick 2)
                   | exact (emit_tick 3) | exact (emit_tick 4)]|]).
    constructor.
  - vm_compute. reflexivity.
Defined.

(** C10, as the specification has it, fails: the reducer takes a [Move] with
    any payload, and the snapshot reached from the initial one by
    [Move(0, 1)] has the player at y = 524, which is none of the nine rows. *)
Lemma any_move_leaves_rows :
  exists s, scan initialState [Move 0 1] = Some s
    /\ reachable_by any_event s
    /\ y (frog s) == 524
    /\ ~ (exists k : nat, (k <= 8)%nat
            /\ y (frog s) == CONSTANTS.FROG_START_Y
                              - CONSTANTS.FROG_STEP_Y * Q_of_nat k).
Proof.
  eexists. split; [reflexivity|]. split; [|split].
  - apply (reach_step any_event initialState _ (Move 0 1));
      [apply reach_init | exact I | reflexivity].
  - reflexivity.
  - intro Hrow. apply frogRow_cases in Hrow.
    repeat (destruct Hrow as [Hrow | Hrow]; [vm_compute in Hrow; discriminate Hrow|]).
    vm_compute in Hrow. discriminate Hrow.
Qed.

(** The same step, read off the reducer. *)
Remark move_payload_off_grid :
  option_map (fun s' => y (frog s')) (reduceState initialState (Move 0 1))
  = Some (523 + 1).
Proof. reflexivity. Qed.

(** * Further properties of the code *)

(** ** Entity factory *)

Lemma columns_S (col : nat) : columns (S col) = S col :: columns col.
Proof.
  unfold columns. rewrite seq_S, rev_app_distr. reflexivity.
Qed.

Lemma createCarRow_columns (row : Z) (col : nat) (acc : list Body) :
  createCarRow row col acc = acc ++ map (carAt row) (columns col).
Proof.
  revert acc. induction col as [|col IH]; intro acc.
  - cbn. now rewrite app_nil_r.
  - cbn [createCarRow]. rewrite IH, columns_S, <- app_assoc. reflexivity.
Qed.

Lemma createLogRow_columns (row : Z) (col : nat) (acc : list Body) :
  createLogRow row col acc = acc ++ map (logAt row) (columns col).
Proof.
  revert acc. induction col as [|col IH]; intro acc.
  - cbn. now rewrite app_nil_r.
  - cbn [createLogRow]. rewrite IH, columns_S, <- app_assoc. reflexivity.
Qed.

Lemma createTurtleRow_columns (col : nat) (acc : list Body) :
  createTurtleRow col acc = acc ++ map turtleAt (columns col).
Proof.
  revert acc. induction col as [|col IH]; intro acc.
  - cbn. now rewrite app_nil_r.
  - cbn [createTurtleRow]. rewrite IH, columns_S, <- app_assoc. reflexivity.
Qed.

Lemma createFilledSpaces_columns (col : nat) (acc : list Body) :
  createFilledSpaces col acc = acc ++ map slotAt (columns col).
Proof.
  revert acc. induction col as [|col IH]; intro acc.
  - cbn. now rewrite app_nil_r.
  - cbn [createFilledSpaces]. rewrite IH, columns_S, <- app_assoc. reflexivity.
Qed.

(** X1. Each factory returns its accumulator followed by one body per column,
    from column [col] down to column 1; in particular a count of 0 returns the
    accumulator, and a count of [col] adds exactly [col] bodies. *)
Theorem factory_rows (row : Z) (col : nat) (acc : list Body) :
  createCarRow row col acc = acc ++ map (carAt row) (columns col)
  /\ createLogRow row col acc = acc ++ map (logAt row) (columns col)
  /\ createTurtleRow col acc = acc ++ map turtleAt (columns col)
  /\ createFilledSpaces col acc = acc ++ map slotAt (columns col)
  /\ List.length (columns col) = col.
Proof.
  repeat split.
  - apply createCarRow_columns.
  - apply createLogRow_columns.
  - apply createTurtleRow_columns.
  - apply createFilledSpaces_columns.
  - unfold columns. now rewrite length_rev, length_seq.
Qed.

Lemma to_uint_not_Nil (n : nat) : Nat.to_uint n <> Decimal.Nil.
Proof.
  intro E. pose proof (DecimalNat.Unsigned.of_to n) as H. rewrite E in H.
  cbn in H. subst n. discriminate E.
Qed.

Lemma str_of_nat_inj (m n : nat) : str_of_nat m = str_of_nat n -> m = n.
Proof.
  unfold str_of_nat. intro E.
  apply (f_equal NilZero.uint_of_string) in E.
  rewrite !NilZero.usu in E by apply to_uint_not_Nil.
  injection E as E. now apply DecimalNat.Unsigned.to_uint_inj.
Qed.

Lemma append_inj_r (p a b : string) : (p ++ a)%string = (p ++ b)%string -> a = b.
Proof.
  induction p as [|c p IH]; cbn; intro E; [assumption|].
  injection E as E. now apply IH.
Qed.

Lemma columns_NoDup (col : nat) : NoDup (columns col).
Proof. apply NoDup_rev, seq_NoDup. Qed.

Lemma NoDup_map_ids (mk : nat -> Body) (col : nat) :
  (forall m n, id (mk m) = id (mk n) -> m = n) ->
  NoDup (map (fun b : Body => id b) (map mk (columns col))).
Proof.
  intro Hinj. rewrite map_map.
  apply Finite.Injective_map_NoDup; [exact Hinj | apply columns_NoDup].
Qed.

(** X2. Within one row built by a factory from an empty accumulator, no two
    bodies share an id, whatever the row number and the count. *)
Theorem factory_ids_distinct (row : Z) (col : nat) :
  NoDup (map (fun b : Body => id b) (createCarRow row col []))
  /\ NoDup (map (fun b : Body => id b) (createLogRow row col []))
  /\ NoDup (map (fun b : Body => id b) (createTurtleRow col []))
  /\ NoDup (map (fun b : Body => id b) (createFilledSpaces col [])).
Proof.
  rewrite createCarRow_columns, createLogRow_columns,
    createTurtleRow_columns, createFilledSpaces_columns.
  cbn [app].
  repeat split; apply NoDup_map_ids; intros m n E; cbn [id carAt logAt turtleAt slotAt base] in E;
    apply str_of_nat_inj.
  - apply (append_inj_r "-"), (append_inj_r (str_of_Z row)), (append_inj_r "CAR").
    exact E.
  - apply (append_inj_r "-"), (append_inj_r (str_of_Z row)), (append_inj_r "LOG").
    exact E.
  - exact (append_inj_r "TURTLE-" _ _ E).
  - exact (append_inj_r "FILLED" _ _ E).
Qed.

(** ** Nearest slot *)

Lemma fold_nearest (fx : Q) (rest : list Body) (acc : Body) :
  let d := fun b : Body => Qabs (x b - fx) in
  let r := fold_left (fun (acc object : Body) =>
                        if Qltb (d object) (d acc) then object else acc) rest acc in
  (r = acc /\ forall p, In p rest -> d acc <= d p)
  \/ (exists l1 l2, rest = l1 ++ r :: l2 /\ d r < d acc
        /\ (forall p, In p l1 -> d r < d p)
        /\ (forall p, In p l2 -> d r <= d p)).
Proof.
  intros d. revert acc. induction rest as [|o rest IH]; intro acc; cbn zeta.
  - left. split; [reflexivity | intros p []].
  - cbn [fold_left]. destruct (Qltb (d o) (d acc)) eqn:E; props.
    + destruct (IH o) as [[Er Hall] | (l1 & l2 & Hsplit & Hlt & H1 & H2)].
      * right. exists [], rest. cbn zeta in Er. rewrite Er.
        repeat split; [assumption | intros p [] | assumption].
      * right. exists (o :: l1), l2. cbn zeta in Hsplit, Hlt, H1, H2.
        repeat split.
        -- cbn [app]. f_equal. exact Hsplit.
        -- lra.
        -- intros p [<- | Hp]; [assumption | now apply H1].
        -- assumption.
    + destruct (IH acc) as [[Er Hall] | (l1 & l2 & Hsplit & Hlt & H1 & H2)].
      * left. split; [assumption|].
        intros p [<- | Hp]; [assumption | now apply Hall].
      * right. exists (o :: l1), l2. cbn zeta in Hsplit, Hlt, H1, H2.
        repeat split.
        -- cbn [app]. f_equal. exact Hsplit.
        -- assumption.
        -- intros p [<- | Hp]; [lra | now apply H1].
        -- assumption.
Qed.

Lemma nearestObject_le (s : State) (o p : Body) :
  nearestObject s = Some o -> In p (filledSpaces s) ->
  Qabs (x o - x (frog s)) <= Qabs (x p - x (frog s)).
Proof.
  unfold nearestObject, reduce.
  destruct (filledSpaces s) as [|first rest]; [discriminate|].
  pose proof (fold_nearest (x (frog s)) rest first) as Hfold.
  cbv beta zeta in Hfold.
  set (r := fold_left _ rest first) in *.
  intros H Hp. assert (Eo : o = r) by congruence. rewrite Eo. clear o H Eo.
  destruct Hfold as [[Er Hall] | (l1 & l2 & Hsplit & Hlt & H1 & H2)].
  - rewrite Er. destruct Hp as [<- | Hp]; [apply Qle_refl | now apply Hall].
  - destruct Hp as [<- | Hp]; [now apply Qlt_le_weak|].
    rewrite Hsplit in Hp. apply in_app_or in Hp.
    destruct Hp as [Hp | [<- | Hp]].
    + apply Qlt_le_weak. now apply H1.
    + apply Qle_refl.
    + now apply H2.
Qed.

(** X3. [nearestObject] throws exactly on an empty slot array; otherwise it
    returns the first slot, in array order, whose distance from the player
    is minimal: slots before it are strictly farther, slots after it are at
    least as far. *)
Theorem nearestObject_first_nearest (s : State) :
  (nearestObject s = None <-> filledSpaces s = [])
  /\ (forall o, nearestObject s = Some o ->
        exists before after,
          filledSpaces s = before ++ o :: after
          /\ (forall p, In p before -> distanceTo s o < distanceTo s p)
          /\ (forall p, In p after -> distanceTo s o <= distanceTo s p)).
Proof.
  unfold nearestObject, reduce, distanceTo.
  destruct (filledSpaces s) as [|first rest].
  - split; [tauto | discriminate].
  - split; [split; discriminate|].
    pose proof (fold_nearest (x (frog s)) rest first) as Hfold.
    cbv beta zeta in Hfold.
    set (r := fold_left _ rest first) in *.
    intros o H. assert (Eo : o = r) by congruence. rewrite Eo. clear o H Eo.
    destruct Hfold as [[Er Hall] | (l1 & l2 & Hsplit & Hlt & H1 & H2)].
    + exists [], rest. rewrite Er.
      repeat split; [intros p [] | assumption].
    + exists (first :: l1), l2. repeat split.
      * cbn [app]. f_equal. exact Hsplit.
      * intros p [<- | Hp]; [assumption | now apply H1].
      * assumption.
Qed.

Lemma nearestObject_first_nearest_witness :
  exists before after,
    filledSpaces homeState = before ++ slotAt 3 :: after
    /\ (forall p, In p before ->
          distanceTo homeState (slotAt 3) < distanceTo homeState p)
    /\ (forall p, In p after ->
          distanceTo homeState (slotAt 3) <= distanceTo homeState p).
Proof.
  apply (proj2 (nearestObject_first_nearest homeState)).
  vm_compute. reflexivity.
Defined.

(** ** Bushes and slot gaps *)

(** The test of [onBushes] as inequalities, for any width. *)
Lemma onBushes_zones (f : Frog) :
  onBushes f = true <->
  (x f + width f <= getXCoord (-3) + width f / 4
   /\ getXCoord (-5) - width f / 4 <= x f
   \/ x f + width f <= CONSTANTS.FROG_START_X + width f / 4
      /\ getXCoord (-2) - width f / 4 <= x f
   \/ x f + width f <= getXCoord 3 + width f / 4
      /\ getXCoord 1 - width f / 4 <= x f
   \/ x f + width f <= getXCoord 6 + width f / 4
      /\ getXCoord 4 - width f / 4 <= x f)
  /\ y f == CONSTANTS.ROW_7.
Proof.
  unfold onBushes.
  rewrite andb_true_iff, !orb_true_iff, !andb_true_iff, !Qleb_le, Qeqb_eq.
  tauto.
Qed.



Lemma Qabs_le_0 (v : Q) : Qabs v <= 0 -> v == 0.
Proof.
  intro H. apply Qabs_Qle_condition in H. lra.
Qed.

Lemma slots_listed (o : Body) :
  In o (createFilledSpaces CONSTANTS.TARGET_COUNT []) ->
  (x o == 537 /\ targetIndexOf o = Some 4%Z)
  \/ (x o == 408 /\ targetIndexOf o = Some 3%Z)
  \/ (x o == 279 /\ targetIndexOf o = Some 2%Z)
  \/ (x o == 150 /\ targetIndexOf o = Some 1%Z)
  \/ (x o == 21 /\ targetIndexOf o = Some 0%Z).
Proof.
  cbn [CONSTANTS.TARGET_COUNT createFilledSpaces app In].
  intros [<- | [<- | [<- | [<- | [<- | []]]]]].
  - left. split; reflexivity.
  - right; left. split; reflexivity.
  - right; right; left. split; reflexivity.
  - right; right; right; left. split; reflexivity.
  - right; right; right; right. split; reflexivity.
Qed.

Lemma slot_present (v : Q) :
  v == 537 \/ v == 408 \/ v == 279 \/ v == 150 \/ v == 21 ->
  exists p, In p (createFilledSpaces CONSTANTS.TARGET_COUNT []) /\ x p == v.
Proof.
  cbn [CONSTANTS.TARGET_COUNT createFilledSpaces app].
  intros [H | [H | [H | [H | H]]]];
    [exists (slotAt 5) | exists (slotAt 4) | exists (slotAt 3)
     | exists (slotAt 2) | exists (slotAt 1)];
    (split; [cbn; tauto | rewrite H; reflexivity]).
Qed.

(** X5. On the goal row, a player of width 40 standing in step column [k]
    (x = 279 + 43 k, k from -6 to 6) is in a target slot exactly when [k] is
    a multiple of 3, and on a bush otherwise; in a slot column the nearest
    slot is the one at the player's own x, and its index is [k / 3 + 2]. *)
Theorem slot_columns (s : State) (k : Z) :
  filledSpaces s = createFilledSpaces CONSTANTS.TARGET_COUNT [] ->
  width (frog s) == CONSTANTS.FROG_WIDTH ->
  y (frog s) == CONSTANTS.ROW_7 ->
  x (frog s) == getXCoord (inject_Z k) ->
  (-6 <= k <= 6)%Z ->
  inTarget s = (k mod 3 =? 0)%Z
  /\ onBushes (frog s) = negb (k mod 3 =? 0)%Z
  /\ ((k mod 3 = 0)%Z ->
      exists o, nearestObject s = Some o
        /\ x o == x (frog s)
        /\ targetIndexOf o = Some (k / 3 + 2)%Z).
Proof.
  intros Hs Hw Hy Hx Hk.
  assert (Hb : onBushes (frog s) = negb (k mod 3 =? 0)%Z).
  { pose proof (onBushes_zones (frog s)) as Hiff.
    unfold CONSTANTS.FROG_WIDTH in Hw. consts.
    unfold Qdiv in Hiff. change (/ 4) with (1 # 4) in Hiff.
    assert (k = -6 \/ k = -5 \/ k = -4 \/ k = -3 \/ k = -2 \/ k = -1 \/ k = 0
            \/ k = 1 \/ k = 2 \/ k = 3 \/ k = 4 \/ k = 5 \/ k = 6)%Z as Hc by lia.
    repeat (destruct Hc as [-> | Hc]); [..|subst k];
      unfold inject_Z in Hx;
      match goal with
      | |- _ = ?b => let v := eval vm_compute in b in change b with v
      end;
      first
        [ (* a slot column *)
          destruct (onBushes (frog s)); [|reflexivity];
          destruct (proj1 Hiff eq_refl) as [Hin _]; exfalso; lra
        | (* a bush column *)
          apply Hiff; split; [|exact Hy];
          first [ left; split; lra
                | right; left; split; lra
                | right; right; left; split; lra
                | right; right; right; split; lra ] ]. }
  split; [|split; [exact Hb|]].
  - unfold inTarget. rewrite Hb, negb_involutive.
    apply Qeqb_eq in Hy. rewrite Hy. reflexivity.
  - intro Hmod.
    destruct (nearestObject_defined s Hs) as [o Hnear].
    exists o. split; [exact Hnear|].
    assert (k = -6 \/ k = -3 \/ k = 0 \/ k = 3 \/ k = 6)%Z as Hc.
    { assert (k = -6 \/ k = -5 \/ k = -4 \/ k = -3 \/ k = -2 \/ k = -1 \/ k = 0
              \/ k = 1 \/ k = 2 \/ k = 3 \/ k = 4 \/ k = 5 \/ k = 6)%Z as H13 by lia.
      repeat (destruct H13 as [-> | H13]); [..|subst k];
        first [exfalso; vm_compute in Hmod; discriminate Hmod | auto 8]. }
    assert (Hhere : exists p, In p (filledSpaces s) /\ x p == x (frog s)).
    { rewrite Hs. apply slot_present. consts.
      destruct Hc as [-> | [-> | [-> | [-> | ->]]]]; unfold inject_Z in Hx;
        pick_row. }
    destruct Hhere as (p & Hp & Hpx).
    assert (Hzero : x o == x (frog s)).
    { pose proof (nearestObject_le s o p Hnear Hp) as Hd.
      assert (Hp0 : Qabs (x p - x (frog s)) == 0).
      { rewrite Hpx. setoid_replace (x (frog s) - x (frog s)) with 0 by ring.
        reflexivity. }
      rewrite Hp0 in Hd. apply Qabs_le_0 in Hd. lra. }
    split; [exact Hzero|].
    assert (Ho : In o (createFilledSpaces CONSTANTS.TARGET_COUNT [])).
    { rewrite <- Hs. now apply nearestObject_In. }
    apply slots_listed in Ho. consts.
    destruct Hc as [-> | [-> | [-> | [-> | ->]]]]; unfold inject_Z in Hx;
      match goal with
      | |- _ = ?b => let v := eval vm_compute in b in change b with v
      end;
      destruct Ho as [[Hox Hi] | [[Hox Hi] | [[Hox Hi] | [[Hox Hi] | [Hox Hi]]]]];
      first [exact Hi | exfalso; lra].
Qed.

Lemma slot_columns_witness :
  inTarget homeState = true
  /\ exists o, nearestObject homeState = Some o
       /\ x o == x (frog homeState) /\ targetIndexOf o = Some 2%Z.
Proof.
  destruct (slot_columns homeState 0) as (Hin & _ & Hnear);
    try reflexivity; [lia|].
  split; [exact Hin | apply Hnear; reflexivity].
Defined.

(** ** What a tick on a live snapshot builds *)

Lemma tick_playing (s : State) :
  well_formed s -> gameOver s = false ->
  exists t, tick s = Some (handleCollisions t)
    /\ tickFrog s (level s * CONSTANTS.SPEED_INCREASE) = Some (frog t)
    /\ updateScore s = Some (score t)
    /\ cars t = map (moveCar (level s * CONSTANTS.SPEED_INCREASE)) (cars s)
    /\ logs t = map (moveLog (level s * CONSTANTS.SPEED_INCREASE)) (logs s)
    /\ turtles t = map (moveTurtle (level s * CONSTANTS.SPEED_INCREASE)) (turtles s)
    /\ filledSpaces t = filledSpaces s
    /\ highscore t = newHighscore s
    /\ ((List.length (filledSpacesIndex s) < 5)%nat
        /\ updateFilledInd s = Some (filledSpacesIndex t) /\ level t = level s
        \/ (5 <= List.length (filledSpacesIndex s))%nat
           /\ filledSpacesIndex t = [] /\ level t = level s + 1).
Proof.
  intros Hwf Hover. unfold tick. rewrite Hover.
  destruct (updateScore_defined s Hwf) as [v ->].
  destruct (updateFilledInd_defined s Hwf) as [l ->].
  destruct (tickFrog_defined s (level s * CONSTANTS.SPEED_INCREASE) Hwf) as [f ->].
  destruct (_ <? _)%nat eqn:E.
  - apply Nat.ltb_lt in E. eexists. split; [reflexivity|].
    cbn. repeat split. left. repeat split. exact E.
  - apply Nat.ltb_ge in E. eexists. split; [reflexivity|].
    cbn. repeat split. right. repeat split. exact E.
Qed.

Lemma handleCollisions_fields (t : State) :
  frog (handleCollisions t) = frog t
  /\ cars (handleCollisions t) = cars t
  /\ logs (handleCollisions t) = logs t
  /\ turtles (handleCollisions t) = turtles t
  /\ filledSpaces (handleCollisions t) = filledSpaces t
  /\ filledSpacesIndex (handleCollisions t) = filledSpacesIndex t
  /\ score (handleCollisions t) = score t
  /\ highscore (handleCollisions t) = highscore t
  /\ level (handleCollisions t) = level t.
Proof. repeat split. Qed.

(** ** Layout of the collections *)

Lemma layoutOf_wrap (b : Body) (left : bool) (speed : Q) :
  layoutOf (wrap b left speed) = layoutOf b.
Proof. destruct left; reflexivity. Qed.

Lemma layoutOf_moves (m : Q) (l : list Body) :
  map layoutOf (map (moveCar m) l) = map layoutOf l
  /\ map layoutOf (map (moveLog m) l) = map layoutOf l
  /\ map layoutOf (map (moveTurtle m) l) = map layoutOf l.
Proof.
  rewrite !map_map. repeat split; apply map_ext; intro b;
    unfold moveCar, moveLog, moveTurtle;
    repeat match goal with |- context [if ?c then _ else _] => destruct c end;
    apply layoutOf_wrap.
Qed.

Lemma sameLayout_reset (s : State) : sameLayout (resetState s).
Proof. repeat split. Qed.

Lemma sameLayout_well_formed (s : State) : sameLayout s -> well_formed s.
Proof.
  intros (_ & Hl & _ & Hs). split; [exact Hs|].
  apply (f_equal (@List.length _)) in Hl. rewrite !length_map in Hl.
  rewrite Hl. cbn. lia.
Qed.

Lemma reduceState_sameLayout (s s' : State) (e : Event) :
  sameLayout s -> reduceState s e = Some s' -> sameLayout s'.
Proof.
  intros Hlay H. destruct e; cbn [reduceState] in H.
  - destruct (gameOver s) eqn:Hover.
    + unfold tick in H. rewrite Hover in H. injection H as <-.
      apply sameLayout_reset.
    + destruct (tick_playing s (sameLayout_well_formed s Hlay) Hover)
        as (t & Ht & _ & _ & Hc & Hl & Htu & Hf & _).
      rewrite Ht in H. injection H as <-.
      destruct Hlay as (Lc & Ll & Lt & Lf).
      destruct (layoutOf_moves (level s * CONSTANTS.SPEED_INCREASE) (cars s)) as (Ec & _ & _).
      destruct (layoutOf_moves (level s * CONSTANTS.SPEED_INCREASE) (logs s)) as (_ & El & _).
      destruct (layoutOf_moves (level s * CONSTANTS.SPEED_INCREASE) (turtles s)) as (_ & _ & Et).
      unfold sameLayout. cbn [handleCollisions with_gameOver cars logs turtles filledSpaces].
      rewrite Hc, Hl, Htu, Hf, Ec, El, Et. repeat split; assumption.
  - injection H as <-. exact Hlay.
  - injection H as <-. apply sameLayout_reset.
Qed.

Lemma reachable_sameLayout (P : Event -> Prop) (s : State) :
  reachable_by P s -> sameLayout s.
Proof.
  induction 1 as [|s s' e _ IH _ Hstep].
  - repeat split.
  - exact (reduceState_sameLayout s s' e IH Hstep).
Qed.

Lemma map_fst_layout (l : list Body) :
  map (fun b : Body => id b) l
  = map (fun v : string * Q * Q * Q * string * bool =>
           let '(i, _, _, _, _, _) := v in i) (map layoutOf l).
Proof. rewrite map_map. apply map_ext. reflexivity. Qed.

(** X6. In every snapshot reachable from the initial one, whatever the
    events, cars, logs and turtles are the bodies of the initial layout in
    the same order, with the same ids, rows, sizes, images and directions
    (only x moves), the target slots are the initial ones, and ids stay
    distinct within each collection. *)
Theorem layout_invariant (s : State) :
  reachable_by any_event s ->
  map layoutOf (cars s) = map layoutOf (cars initialState)
  /\ map layoutOf (logs s) = map layoutOf (logs initialState)
  /\ map layoutOf (turtles s) = map layoutOf (turtles initialState)
  /\ filledSpaces s = filledSpaces initialState
  /\ NoDup (map (fun b : Body => id b) (cars s))
  /\ NoDup (map (fun b : Body => id b) (logs s))
  /\ NoDup (map (fun b : Body => id b) (turtles s)).
Proof.
  intro Hreach.
  destruct (reachable_sameLayout any_event s Hreach) as (Lc & Ll & Lt & Lf).
  repeat split; try assumption;
    rewrite map_fst_layout;
    [rewrite Lc | rewrite Ll | rewrite Lt];
    vm_compute;
    repeat (constructor; [cbn; intuition discriminate|]); constructor.
Qed.

Lemma layout_invariant_witness :
  exists s, scan initialState meetCar = Some s
    /\ map layoutOf (cars s) = map layoutOf (cars initialState).
Proof.
  eexists. split; [vm_compute; reflexivity|].
  apply layout_invariant.
  apply (scan_reachable any_event meetCar initialState).
  - apply reach_init.
  - repeat constructor.
  - vm_compute. reflexivity.
Defined.

(** ** Bodies stay on the canvas *)

Lemma notOutside_inBand (b : Body) :
  entirelyOutside b = false -> inBand b.
Proof.
  unfold entirelyOutside, inBand. intro H. props. consts. split; lra.
Qed.

Lemma moves_inBand (m : Q) (b : Body) :
  0 <= m -> 0 < width b /\ inBand b ->
  (0 < width (moveCar m b) /\ inBand (moveCar m b))
  /\ (0 < width (moveLog m b) /\ inBand (moveLog m b))
  /\ (0 < width (moveTurtle m b) /\ inBand (moveTurtle m b)).
Proof.
  intros Hm [Hw [Hlo Hhi]].
  destruct (tick_motion_on_canvas m b Hm Hw Hlo Hhi) as (Hc & Hl & Ht).
  assert (Ew : forall b', layoutOf b' = layoutOf b -> width b' = width b).
  { intros b' E. unfold layoutOf in E. now injection E. }
  assert (Lc : layoutOf (moveCar m b) = layoutOf b).
  { unfold moveCar.
    repeat match goal with |- context [if ?c then _ else _] => destruct c end;
      apply layoutOf_wrap. }
  assert (Ll : layoutOf (moveLog m b) = layoutOf b).
  { unfold moveLog.
    repeat match goal with |- context [if ?c then _ else _] => destruct c end;
      apply layoutOf_wrap. }
  assert (Lt : layoutOf (moveTurtle m b) = layoutOf b) by apply layoutOf_wrap.
  split; [|split];
    (split; [rewrite Ew; assumption | apply notOutside_inBand; assumption]).
Qed.

Lemma initial_inBand (b : Body) :
  In b (cars initialState ++ logs initialState ++ turtles initialState) ->
  0 < width b /\ inBand b.
Proof.
  intro Hin. vm_compute in Hin.
  repeat (destruct Hin as [<- | Hin]; [vm_compute; intuition discriminate|]).
  destruct Hin.
Qed.

Lemma reachable_stage (s : State) :
  reachable_by any_event s ->
  0 <= level s
  /\ forall b, In b (cars s ++ logs s ++ turtles s) -> 0 < width b /\ inBand b.
Proof.
  induction 1 as [|s s' e Hreach [IHl IHb] _ Hstep].
  - split; [cbn; lra | exact initial_inBand].
  - destruct e; cbn [reduceState] in Hstep.
    + destruct (gameOver s) eqn:Hover.
      * unfold tick in Hstep. rewrite Hover in Hstep. injection Hstep as <-.
        split; [cbn; lra | exact initial_inBand].
      * destruct (tick_playing s (reachable_well_formed _ s Hreach) Hover)
          as (t & Ht & _ & _ & Hc & Hl & Htu & _ & _ & Hlev).
        rewrite Ht in Hstep. injection Hstep as <-.
        cbn [handleCollisions with_gameOver cars logs turtles level].
        split.
        -- destruct Hlev as [(_ & _ & ->) | (_ & _ & ->)]; lra.
        -- assert (Hm : 0 <= level s * CONSTANTS.SPEED_INCREASE).
           { unfold CONSTANTS.SPEED_INCREASE.
             setoid_replace 0.5 with (1 # 2) by reflexivity. lra. }
           intros b Hb. rewrite Hc, Hl, Htu in Hb.
           rewrite !in_app_iff, !in_map_iff in Hb.
           destruct Hb as [(b0 & <- & Hb0) | [(b0 & <- & Hb0) | (b0 & <- & Hb0)]];
             apply (moves_inBand _ b0 Hm); apply IHb; rewrite !in_app_iff; tauto.
    + injection Hstep as <-. split; assumption.
    + injection Hstep as <-. split; [cbn; lra | exact initial_inBand].
Qed.

(** X7. In every snapshot reachable from the initial one, whatever the
    events, the level is not negative and every car, log and turtle has
    [-width < x <= 600]: a body may stand exactly at the right edge, as
    column 3 of every row does after a reset, but never beyond it nor wholly
    past the left edge.  A tick on a live reachable snapshot returns a
    snapshot in which no car, log or turtle is entirely outside the canvas. *)
Theorem bodies_stay_on_stage (s : State) :
  reachable_by any_event s ->
  0 <= level s
  /\ (forall b, In b (cars s ++ logs s ++ turtles s) ->
        - width b < x b /\ x b <= CONSTANTS.CANVAS_SIZE)
  /\ (gameOver s = false ->
      exists s', tick s = Some s'
        /\ forall b, In b (cars s' ++ logs s' ++ turtles s') ->
             entirelyOutside b = false).
Proof.
  intro Hreach. destruct (reachable_stage s Hreach) as [Hl Hb].
  split; [exact Hl|]. split.
  - intros b Hin. exact (proj2 (Hb b Hin)).
  - intro Hover.
    destruct (tick_playing s (reachable_well_formed _ s Hreach) Hover)
      as (t & Ht & _ & _ & Hc & Hlg & Htu & _).
    exists (handleCollisions t). split; [exact Ht|].
    cbn [handleCollisions with_gameOver cars logs turtles].
    assert (Hm : 0 <= level s * CONSTANTS.SPEED_INCREASE).
    { unfold CONSTANTS.SPEED_INCREASE.
      setoid_replace 0.5 with (1 # 2) by reflexivity. lra. }
    intros b Hin. rewrite Hc, Hlg, Htu in Hin.
    rewrite !in_app_iff, !in_map_iff in Hin.
    destruct Hin as [(b0 & <- & Hb0) | [(b0 & <- & Hb0) | (b0 & <- & Hb0)]];
      (assert (Hstage : 0 < width b0 /\ inBand b0)
         by (apply Hb; rewrite !in_app_iff; tauto));
      destruct Hstage as (Hw & Hlo & Hhi);
      apply (tick_motion_on_canvas _ b0 Hm Hw Hlo Hhi).
Qed.

Lemma bodies_stay_on_stage_witness :
  exists s, scan initialState fillAll = Some s
    /\ (0 <= level s
        /\ (forall b, In b (cars s ++ logs s ++ turtles s) ->
              - width b < x b /\ x b <= CONSTANTS.CANVAS_SIZE)
        /\ (gameOver s = false ->
            exists s', tick s = Some s'
              /\ forall b, In b (cars s' ++ logs s' ++ turtles s') ->
                   entirelyOutside b = false)).
Proof.
  eexists. split; [vm_compute; reflexivity|].
  apply bodies_stay_on_stage.
  apply (scan_reachable any_event fillAll initialState).
  - apply reach_init.
  - repeat constructor.
  - vm_compute. reflexivity.
Defined.

(** ** Rows of the layout *)

Lemma map_eq_In {A B : Type} (f : A -> B) (P : B -> Prop) (l l0 : list A) :
  map f l = map f l0 -> Forall P (map f l0) -> forall a, In a l -> P (f a).
Proof.
  intros E HP a Ha. rewrite <- E in HP.
  rewrite Forall_forall in HP. apply HP. now apply in_map.
Qed.

Lemma map_eq_nth {A B : Type} (f : A -> B) (l l0 : list A) (i : nat) (v : B) :
  map f l = map f l0 -> nth_error (map f l0) i = Some v ->
  exists a, nth_error l i = Some a /\ f a = v.
Proof.
  intros E Hv. rewrite <- E, nth_error_map in Hv.
  destruct (nth_error l i) as [a|]; [|discriminate].
  exists a. split; [reflexivity | now injection Hv].
Qed.

Lemma layout_rows (s : State) :
  sameLayout s ->
  (forall b, In b (cars s) -> y b = 464 \/ y b = 405 \/ y b = 346)
  /\ (forall b, In b (logs s) ->
        (y b = 228 /\ char_is (String.get 3 (id b)) "2" = false)
        \/ (y b = 110 /\ char_is (String.get 3 (id b)) "2" = true))
  /\ (forall b, In b (turtles s) -> y b = 169)
  /\ (exists b0 b3, nth_error (logs s) 0 = Some b0 /\ nth_error (logs s) 3 = Some b3
        /\ y b0 = 228 /\ y b3 = 110)
  /\ (exists t0, nth_error (turtles s) 0 = Some t0 /\ y t0 = 169).
Proof.
  intros (Lc & Ll & Lt & _).
  split; [|split; [|split; [|split]]].
  - apply (map_eq_In layoutOf
             (fun v => let '(_, r, _, _, _, _) := v in r = 464 \/ r = 405 \/ r = 346)
             _ _ Lc).
    vm_compute. repeat constructor; tauto.
  - apply (map_eq_In layoutOf
             (fun v => let '(i, r, _, _, _, _) := v in
                (r = 228 /\ char_is (String.get 3 i) "2" = false)
                \/ (r = 110 /\ char_is (String.get 3 i) "2" = true))
             _ _ Ll).
    vm_compute. repeat constructor; tauto.
  - apply (map_eq_In layoutOf
             (fun v => let '(_, r, _, _, _, _) := v in r = 169) _ _ Lt).
    vm_compute. repeat constructor.
  - destruct (map_eq_nth layoutOf _ _ 0%nat _ Ll eq_refl) as (b0 & E0 & L0).
    destruct (map_eq_nth layoutOf _ _ 3%nat _ Ll eq_refl) as (b3 & E3 & L3).
    exists b0, b3. unfold layoutOf in L0, L3.
    repeat split; try assumption; [now injection L0 | now injection L3].
  - destruct (map_eq_nth layoutOf _ _ 0%nat _ Lt eq_refl) as (t0 & E0 & L0).
    exists t0. unfold layoutOf in L0. split; [assumption | now injection L0].
Qed.

Lemma filter_none {A : Type} (p : A -> bool) (l : list A) :
  (forall a, In a l -> p a = false) -> nonEmpty (filter p l) = false.
Proof.
  intro H. induction l as [|a l IH]; [reflexivity|].
  cbn [filter]. rewrite (H a (or_introl eq_refl)).
  apply IH. intros b Hb. apply H. now right.
Qed.

Lemma filter_some {A : Type} (p : A -> bool) (l : list A) (a : A) :
  In a l -> p a = true -> nonEmpty (filter p l) = true.
Proof.
  intros Hin Hp.
  assert (Hf : In a (filter p l)) by (apply filter_In; split; assumption).
  destruct (filter p l); [destruct Hf | reflexivity].
Qed.

Lemma filter_some_inv {A : Type} (p : A -> bool) (l : list A) :
  nonEmpty (filter p l) = true -> exists a, In a l /\ p a = true.
Proof.
  destruct (filter p l) as [|a rest] eqn:E; [discriminate|]. intros _.
  exists a. apply filter_In. rewrite E. now left.
Qed.

(** On a row that carries no car, log, turtle or bush, nothing ends the life. *)
Lemma quiet_row (t : State) :
  sameLayout t ->
  y (frog t) == 523 \/ y (frog t) == 287 ->
  frogOnLog t = false /\ frogOnTurtle t = false /\ inTarget t = false
  /\ gameOver (handleCollisions t) = false.
Proof.
  intros Hlay Hy.
  destruct (layout_rows t Hlay) as (Hc & Hl & Ht & _ & _).
  assert (Elog : frogOnLog t = false).
  { apply filter_none. intros b Hb. unfold onWaterObj.
    apply andb_false_iff. right. apply Qeqb_neq.
    destruct (Hl b Hb) as [[-> _] | [-> _]]; lra. }
  assert (Etur : frogOnTurtle t = false).
  { apply filter_none. intros b Hb. unfold onWaterObj.
    apply andb_false_iff. right. apply Qeqb_neq. rewrite (Ht b Hb). lra. }
  assert (Ecar : frogCollided t = false).
  { apply filter_none. intros b Hb. unfold obstacleCollision.
    apply andb_false_iff. right. apply Qeqb_neq.
    destruct (Hc b Hb) as [-> | [-> | ->]]; lra. }
  assert (Erow : Qeq_bool (y (frog t)) CONSTANTS.ROW_7 = false).
  { apply Qeqb_neq. consts. lra. }
  assert (Ewat : onWater (frog t) = false).
  { unfold onWater. apply andb_false_iff. right. apply Qleb_gt. consts. lra. }
  repeat split; try assumption.
  - unfold inTarget. now rewrite Erow.
  - cbn [handleCollisions with_gameOver gameOver].
    unfold frogOnObj, onBushes.
    rewrite Ecar, Elog, Etur, Ewat, Erow, andb_false_r. reflexivity.
Qed.

Lemma sameLayout_moved (s t : State) :
  sameLayout s ->
  cars t = map (moveCar (level s * CONSTANTS.SPEED_INCREASE)) (cars s) ->
  logs t = map (moveLog (level s * CONSTANTS.SPEED_INCREASE)) (logs s) ->
  turtles t = map (moveTurtle (level s * CONSTANTS.SPEED_INCREASE)) (turtles s) ->
  filledSpaces t = filledSpaces s ->
  sameLayout t.
Proof.
  intros (Lc & Ll & Lt & Lf) Hc Hl Htu Hf.
  destruct (layoutOf_moves (level s * CONSTANTS.SPEED_INCREASE) (cars s)) as (Ec & _ & _).
  destruct (layoutOf_moves (level s * CONSTANTS.SPEED_INCREASE) (logs s)) as (_ & El & _).
  destruct (layoutOf_moves (level s * CONSTANTS.SPEED_INCREASE) (turtles s)) as (_ & _ & Et).
  unfold sameLayout. rewrite Hc, Hl, Htu, Hf, Ec, El, Et. repeat split; assumption.
Qed.

(** ** Safe rows and scoring ticks *)

(** X8. With the game's layout, a tick leaves a live player on the start row
    (523) or on the empty middle row (287) where it is and never ends the
    life there. *)
Theorem safe_rows (s : State) :
  sameLayout s ->
  gameOver s = false ->
  y (frog s) == 523 \/ y (frog s) == 287 ->
  exists s', tick s = Some s' /\ frog s' = frog s /\ gameOver s' = false.
Proof.
  intros Hlay Hover Hy.
  destruct (quiet_row s Hlay Hy) as (Elog & Etur & Etar & _).
  destruct (tick_playing s (sameLayout_well_formed s Hlay) Hover)
    as (t & Ht & Hf & _ & Hc & Hl & Htu & Hfs & _).
  assert (Ef : frog t = frog s).
  { unfold tickFrog, and_then in Hf. rewrite Etar, Elog, Etur in Hf.
    now injection Hf. }
  exists (handleCollisions t). split; [exact Ht|]. split; [exact Ef|].
  apply quiet_row.
  - exact (sameLayout_moved s t Hlay Hc Hl Htu Hfs).
  - rewrite Ef. exact Hy.
Qed.

Lemma safe_rows_witness :
  exists s', tick initialState = Some s'
    /\ frog s' = frog initialState /\ gameOver s' = false.
Proof.
  apply (safe_rows initialState).
  - repeat split.
  - reflexivity.
  - left. reflexivity.
Defined.

(** X9. With the game's layout, a tick that finds a live player in a target
    slot always returns a snapshot: the player is back at the start, the life
    goes on, and the score is the old one if the nearest slot's index was
    already recorded and 100 more if it was not. *)
Theorem scoring_tick (s : State) :
  sameLayout s ->
  gameOver s = false ->
  inTarget s = true ->
  exists s' o, tick s = Some s'
    /\ nearestObject s = Some o
    /\ frog s' = frog initialState
    /\ gameOver s' = false
    /\ score s' = (if includes (filledSpacesIndex s) (targetIndexOf o)
                   then score s else score s + 100).
Proof.
  intros Hlay Hover Htar.
  pose proof (sameLayout_well_formed s Hlay) as Hwf.
  destruct (tick_playing s Hwf Hover)
    as (t & Ht & Hf & Hsc & Hc & Hl & Htu & Hfs & _).
  destruct (nearestObject_defined s (proj1 Hwf)) as [o Hnear].
  assert (Ef : frog t = frog initialState).
  { unfold tickFrog in Hf. rewrite Htar in Hf. now injection Hf. }
  exists (handleCollisions t), o.
  split; [exact Ht|]. split; [exact Hnear|]. split; [exact Ef|]. split.
  - apply quiet_row.
    + exact (sameLayout_moved s t Hlay Hc Hl Htu Hfs).
    + rewrite Ef. left. reflexivity.
  - unfold updateScore, and_then, checkFilled in Hsc.
    rewrite Htar, Hnear in Hsc. cbn [score handleCollisions with_gameOver].
    destruct (includes _ _); cbn in Hsc; now injection Hsc.
Qed.

Lemma scoring_tick_witness :
  exists s' o, tick homeState = Some s'
    /\ nearestObject homeState = Some o
    /\ frog s' = frog initialState
    /\ gameOver s' = false
    /\ score s' = 100.
Proof.
  destruct (scoring_tick homeState) as (s' & o & Ht & Hn & Hf & Hg & Hs).
  - repeat split.
  - reflexivity.
  - reflexivity.
  - exists s', o. repeat split; try assumption.
    rewrite Hs.
    assert (Eo : o = slotAt 3).
    { assert (E : nearestObject homeState = Some (slotAt 3)) by (vm_compute; reflexivity).
      congruence. }
    rewrite Eo. reflexivity.
Defined.

(** ** Score board *)

Lemma updateScore_cases (s : State) (v : Q) :
  updateScore s = Some v ->
  v = score s \/ (v = score s + 100 /\ inTarget s = true).
Proof.
  unfold updateScore, and_then.
  destruct (inTarget s); [|intro H; injection H as <-; now left].
  destruct (checkFilled s) as [c|]; [|discriminate].
  destruct c; cbn; intro H; injection H as <-; [now left | right; now split].
Qed.

Lemma newHighscore_cases (s : State) :
  (newHighscore s = score s /\ highscore s <= score s)
  \/ (newHighscore s = highscore s /\ score s < highscore s).
Proof.
  unfold newHighscore. destruct (Qle_bool _ _) eqn:E; props; [left | right]; now split.
Qed.

Lemma scoring_tick_survives (s t : State) :
  sameLayout s ->
  inTarget s = true ->
  tickFrog s (level s * CONSTANTS.SPEED_INCREASE) = Some (frog t) ->
  cars t = map (moveCar (level s * CONSTANTS.SPEED_INCREASE)) (cars s) ->
  logs t = map (moveLog (level s * CONSTANTS.SPEED_INCREASE)) (logs s) ->
  turtles t = map (moveTurtle (level s * CONSTANTS.SPEED_INCREASE)) (turtles s) ->
  filledSpaces t = filledSpaces s ->
  gameOver (handleCollisions t) = false.
Proof.
  intros Hlay Htar Hf Hc Hl Htu Hfs.
  unfold tickFrog in Hf. rewrite Htar in Hf. injection Hf as Ef.
  apply quiet_row.
  - exact (sameLayout_moved s t Hlay Hc Hl Htu Hfs).
  - rewrite <- Ef. left. reflexivity.
Qed.

(** X10. In every snapshot reachable from the initial one, whatever the
    events, score and high score are not negative, the score is at most one
    award of 100 ahead of the high score, and once the game-over flag is set
    the score is no more than the high score: the reset of the next tick
    loses no points. *)
Theorem scoreboard_invariant (s : State) :
  reachable_by any_event s ->
  0 <= score s /\ 0 <= highscore s
  /\ score s <= highscore s + 100
  /\ (gameOver s = true -> score s <= highscore s).
Proof.
  induction 1 as [|s s' e Hreach (IHs & IHh & IHlag & IHover) _ Hstep].
  - cbn. repeat split; try lra; try discriminate.
  - pose proof (reachable_sameLayout _ s Hreach) as Hlay.
    destruct e; cbn [reduceState] in Hstep.
    + destruct (gameOver s) eqn:Hover.
      * unfold tick in Hstep. rewrite Hover in Hstep. injection Hstep as <-.
        cbn. repeat split; try lra; try discriminate.
      * destruct (tick_playing s (sameLayout_well_formed s Hlay) Hover)
          as (t & Ht & Hf & Hsc & Hc & Hl & Htu & Hfs & Hhs & _).
        rewrite Ht in Hstep. injection Hstep as <-.
        cbn [score highscore handleCollisions with_gameOver].
        rewrite Hhs.
        destruct (newHighscore_cases s) as [[-> Hle] | [-> Hlt]];
          destruct (updateScore_cases s _ Hsc) as [-> | [-> Htar]];
          repeat split; try lra;
          intro Hdead;
          try (rewrite (scoring_tick_survives s t Hlay Htar Hf Hc Hl Htu Hfs) in Hdead;
               discriminate Hdead);
          lra.
    + injection Hstep as <-. cbn. repeat split; assumption.
    + injection Hstep as <-. cbn. repeat split; try lra; try discriminate.
Qed.

Lemma scoreboard_invariant_witness :
  exists s, scan initialState fillAll = Some s
    /\ score s == 500 /\ highscore s == 400
    /\ score s <= highscore s + 100.
Proof.
  eexists. split; [vm_compute; reflexivity|].
  split; [reflexivity|]. split; [reflexivity|].
  apply scoreboard_invariant.
  apply (scan_reachable any_event fillAll initialState).
  - apply reach_init.
  - repeat constructor.
  - vm_compute. reflexivity.
Defined.

Lemma Q_of_nat_S (n : nat) : Q_of_nat (S n) == Q_of_nat n + 1.
Proof.
  unfold Q_of_nat. rewrite Nat2Z.inj_succ, <- Z.add_1_r, inject_Z_plus.
  reflexivity.
Qed.

(** X11. In every snapshot reachable from the initial one, whatever the
    events, the level is a natural number and score and high score are
    natural multiples of 100. *)
Theorem scoreboard_naturals (s : State) :
  reachable_by any_event s ->
  exists l p h : nat,
    level s == Q_of_nat l
    /\ score s == 100 * Q_of_nat p
    /\ highscore s == 100 * Q_of_nat h.
Proof.
  induction 1 as [|s s' e Hreach (l & p & h & IHl & IHp & IHh) _ Hstep].
  - exists 0%nat, 0%nat, 0%nat. repeat split; reflexivity.
  - destruct e; cbn [reduceState] in Hstep.
    + destruct (gameOver s) eqn:Hover.
      * unfold tick in Hstep. rewrite Hover in Hstep. injection Hstep as <-.
        exists 0%nat, 0%nat, h. cbn. repeat split; try reflexivity. exact IHh.
      * destruct (tick_playing s (reachable_well_formed _ s Hreach) Hover)
          as (t & Ht & _ & Hsc & _ & _ & _ & _ & Hhs & Hlev).
        rewrite Ht in Hstep. injection Hstep as <-.
        cbn [score highscore level handleCollisions with_gameOver].
        rewrite Hhs.
        assert (Hl' : exists l', level t == Q_of_nat l').
        { destruct Hlev as [(_ & _ & ->) | (_ & _ & ->)].
          - now exists l.
          - exists (S l). rewrite Q_of_nat_S, IHl. reflexivity. }
        assert (Hp' : exists p', score t == 100 * Q_of_nat p').
        { destruct (updateScore_cases s _ Hsc) as [-> | [-> _]].
          - now exists p.
          - exists (S p). rewrite Q_of_nat_S, IHp. ring. }
        assert (Hh' : exists h', newHighscore s == 100 * Q_of_nat h').
        { destruct (newHighscore_cases s) as [[-> _] | [-> _]];
            [now exists p | now exists h]. }
        destruct Hl' as [l' El], Hp' as [p' Ep], Hh' as [h' Eh].
        exists l', p', h'. repeat split; assumption.
    + injection Hstep as <-. exists l, p, h. repeat split; assumption.
    + injection Hstep as <-. exists 0%nat, 0%nat, h. cbn.
      repeat split; try reflexivity. exact IHh.
Qed.

Lemma scoreboard_naturals_witness :
  exists s, scan initialState (fillAll ++ [Tick 5]) = Some s
    /\ level s == 1
    /\ exists l p h : nat,
         level s == Q_of_nat l /\ score s == 100 * Q_of_nat p
         /\ highscore s == 100 * Q_of_nat h.
Proof.
  eexists. split; [vm_compute; reflexivity|]. split; [reflexivity|].
  apply scoreboard_naturals.
  apply (scan_reachable any_event (fillAll ++ [Tick 5]) initialState).
  - apply reach_init.
  - repeat constructor.
  - vm_compute. reflexivity.
Defined.

(** ** Riding *)

Lemma onWaterObj_iff (f : Frog) (o : Body) :
  onWaterObj f o = true <->
  x o <= x f /\ x f < x o + 3 * CONSTANTS.FROG_STEP_X /\ y f == y o.
Proof.
  unfold onWaterObj. rewrite !andb_true_iff, Qleb_le, Qltb_lt, Qeqb_eq. tauto.
Qed.

Lemma tickFrog_on_log (s : State) (l : Body) (m : Q) :
  sameLayout s -> In l (logs s) -> onWaterObj (frog s) l = true ->
  exists v,
    tickFrog s m = Some (with_x (frog s) (x (frog s) + v))
    /\ moveLog m l = wrap l true v
    /\ ((v = CONSTANTS.LOG1_SPEED + m /\ y l = 228)
        \/ (v = CONSTANTS.LOG2_SPEED + m /\ y l = 110)).
Proof.
  intros Hlay Hin Hon.
  destruct (layout_rows s Hlay) as (_ & Hl & _ & (b0 & b3 & E0 & E3 & Y0 & Y3) & _).
  assert (Hlog : frogOnLog s = true) by (apply (filter_some _ _ l Hin); exact Hon).
  apply onWaterObj_iff in Hon. destruct Hon as (_ & _ & Hy).
  assert (Htar : inTarget s = false).
  { unfold inTarget. apply andb_false_iff. left. apply Qeqb_neq. consts.
    destruct (Hl l Hin) as [[Yl _] | [Yl _]]; rewrite Yl in Hy; lra. }
  unfold tickFrog, and_then, sameRowAs, moveLog.
  rewrite Htar, Hlog, E0, E3, Y0, Y3.
  destruct (Hl l Hin) as [[Yl Hid] | [Yl Hid]]; rewrite Hid; rewrite Yl in Hy.
  - exists (CONSTANTS.LOG1_SPEED + m).
    apply Qeqb_eq in Hy. rewrite Hy. repeat split. left. now split.
  - exists (CONSTANTS.LOG2_SPEED + m).
    assert (E1 : Qeq_bool (y (frog s)) 228 = false) by (apply Qeqb_neq; lra).
    apply Qeqb_eq in Hy. rewrite E1, Hy. repeat split. right. now split.
Qed.

(** X12. With the game's layout, a tick advances a live player standing on a
    log with the very velocity it gives that log: 10 plus half the level on
    row 228, 15 plus half the level on row 110.  The player's row is kept,
    and the log, wrapped with that velocity, is in the new snapshot. *)
Theorem riding_log (s : State) (l : Body) :
  sameLayout s ->
  gameOver s = false ->
  In l (logs s) ->
  onWaterObj (frog s) l = true ->
  exists s' v,
    tick s = Some s'
    /\ ((v = CONSTANTS.LOG1_SPEED + level s * CONSTANTS.SPEED_INCREASE /\ y l = 228)
        \/ (v = CONSTANTS.LOG2_SPEED + level s * CONSTANTS.SPEED_INCREASE /\ y l = 110))
    /\ frog s' = with_x (frog s) (x (frog s) + v)
    /\ moveLog (level s * CONSTANTS.SPEED_INCREASE) l = wrap l true v
    /\ In (wrap l true v) (logs s').
Proof.
  intros Hlay Hover Hin Hon.
  destruct (tickFrog_on_log s l (level s * CONSTANTS.SPEED_INCREASE) Hlay Hin Hon)
    as (v & Hf & Hmove & Hv).
  destruct (tick_playing s (sameLayout_well_formed s Hlay) Hover)
    as (t & Ht & Hf' & _ & _ & Hl & _).
  assert (Ef : frog t = with_x (frog s) (x (frog s) + v)) by congruence.
  exists (handleCollisions t), v.
  split; [exact Ht|]. split; [exact Hv|]. split; [exact Ef|].
  split; [exact Hmove|].
  cbn [logs handleCollisions with_gameOver]. rewrite Hl, <- Hmove.
  now apply in_map.
Qed.

Lemma riding_log_witness :
  exists s' v,
    tick (with_frog initialState (mkFrog "FROG" 236 228 "../frogger/assets/frog.png" 40 42))
      = Some s'
    /\ v = 10 + 0 * 0.5
    /\ x (frog s') = 236 + v /\ y (frog s') = 228
    /\ In (wrap (logAt 1 1) true v) (logs s').
Proof.
  destruct (riding_log
              (with_frog initialState
                 (mkFrog "FROG" 236 228 "../frogger/assets/frog.png" 40 42))
              (logAt 1 1))
    as (s' & v & Ht & Hv & Hf & _ & Hin).
  - repeat split.
  - reflexivity.
  - cbn. tauto.
  - reflexivity.
  - exists s', v. split; [exact Ht|].
    destruct Hv as [[Hv _] | [_ Hy]]; [|discriminate Hy].
    split; [exact Hv|]. rewrite Hf. repeat split. exact Hin.
Defined.

Lemma tickFrog_on_turtle (s : State) (l : Body) (m : Q) :
  sameLayout s -> In l (turtles s) -> onWaterObj (frog s) l = true ->
  tickFrog s m
  = Some (with_x (frog s) (x (frog s) + (CONSTANTS.TURTLE_SPEED - m))).
Proof.
  intros Hlay Hin Hon.
  destruct (layout_rows s Hlay) as (_ & Hl & Htu & _ & (t0 & E0 & Y0)).
  assert (Htur : frogOnTurtle s = true) by (apply (filter_some _ _ l Hin); exact Hon).
  apply onWaterObj_iff in Hon. destruct Hon as (_ & _ & Hy).
  rewrite (Htu l Hin) in Hy.
  assert (Htar : inTarget s = false).
  { unfold inTarget. apply andb_false_iff. left. apply Qeqb_neq. consts. lra. }
  assert (Hlog : frogOnLog s = false).
  { apply filter_none. intros b Hb. unfold onWaterObj.
    apply andb_false_iff. right. apply Qeqb_neq.
    destruct (Hl b Hb) as [[-> _] | [-> _]]; lra. }
  unfold tickFrog, and_then, sameRowAs.
  rewrite Htar, Hlog, Htur, E0, Y0.
  apply Qeqb_eq in Hy. now rewrite Hy.
Qed.

(** X13. With the game's layout, a tick advances a live player standing on a
    turtle group with the very velocity it gives the group, [-5] less half
    the level: neither log test fires for it.  The player's row is kept, and
    the group, wrapped with that velocity, is in the new snapshot. *)
Theorem riding_turtle (s : State) (l : Body) :
  sameLayout s ->
  gameOver s = false ->
  In l (turtles s) ->
  onWaterObj (frog s) l = true ->
  exists s',
    tick s = Some s'
    /\ frog s' = with_x (frog s)
         (x (frog s) + (CONSTANTS.TURTLE_SPEED - level s * CONSTANTS.SPEED_INCREASE))
    /\ In (wrap l false (CONSTANTS.TURTLE_SPEED - level s * CONSTANTS.SPEED_INCREASE))
          (turtles s').
Proof.
  intros Hlay Hover Hin Hon.
  pose proof (tickFrog_on_turtle s l (level s * CONSTANTS.SPEED_INCREASE) Hlay Hin Hon)
    as Hf.
  destruct (tick_playing s (sameLayout_well_formed s Hlay) Hover)
    as (t & Ht & Hf' & _ & _ & _ & Htu & _).
  exists (handleCollisions t).
  split; [exact Ht|].
  split; [cbn [frog handleCollisions with_gameOver]; congruence|].
  cbn [turtles handleCollisions with_gameOver]. rewrite Htu.
  change (wrap l false (CONSTANTS.TURTLE_SPEED - level s * CONSTANTS.SPEED_INCREASE))
    with (moveTurtle (level s * CONSTANTS.SPEED_INCREASE) l).
  now apply in_map.
Qed.

Lemma riding_turtle_witness :
  exists s',
    tick (with_frog initialState (mkFrog "FROG" 236 169 "../frogger/assets/frog.png" 40 42))
      = Some s'
    /\ x (frog s') = 236 + (-5 - 0 * 0.5) /\ y (frog s') = 169.
Proof.
  destruct (riding_turtle
              (with_frog initialState
                 (mkFrog "FROG" 236 169 "../frogger/assets/frog.png" 40 42))
              (turtleAt 1))
    as (s' & Ht & Hf & _).
  - repeat split.
  - reflexivity.
  - cbn. tauto.
  - reflexivity.
  - exists s'. split; [exact Ht|]. rewrite Hf. split; reflexivity.
Defined.

(** ** Moves *)

Lemma move_result (s s' : State) (dx dy : Q) :
  reduceState s (Move dx dy) = Some s' ->
  x (frog s') =
    (if outLeftBound (x (frog s) + dx) || outRightBound (x (frog s) + dx)
     then x (frog s) else x (frog s) + dx)
  /\ y (frog s') =
    (if outUpBound (y (frog s) + dy) || outDownBound (y (frog s) + dy)
     then y (frog s) else y (frog s) + dy).
Proof.
  cbn [reduceState]. intro H. injection H as <-.
  cbn [frog with_frog with_xy x y]. rewrite illegalMove_x, illegalMove_y.
  split; reflexivity.
Qed.

(** X14. A move never takes a player who is inside the play field out of it:
    from [21 <= x < 580] and [51 <= y < 582] every [Move] whose payload is a
    finite number leads to a position within the same bounds. *)
Theorem move_stays_in_field (s s' : State) (dx dy : Q) :
  21 <= x (frog s) -> x (frog s) < 580 ->
  51 <= y (frog s) -> y (frog s) < 582 ->
  reduceState s (Move dx dy) = Some s' ->
  (21 <= x (frog s') /\ x (frog s') < 580)
  /\ (51 <= y (frog s') /\ y (frog s') < 582).
Proof.
  intros Hx1 Hx2 Hy1 Hy2 H.
  destruct (move_result s s' dx dy H) as [-> ->].
  destruct (move_bounds (x (frog s) + dx)) as [Bx _].
  destruct (move_bounds (y (frog s) + dy)) as [_ By].
  split.
  - destruct (outLeftBound _ || outRightBound _) eqn:E;
      [split; assumption | now apply Bx].
  - destruct (outUpBound _ || outDownBound _) eqn:E;
      [split; assumption | now apply By].
Qed.

Lemma move_stays_in_field_witness :
  exists s', reduceState initialState (Move 1000 (-1000)) = Some s'
    /\ (21 <= x (frog s') /\ x (frog s') < 580)
    /\ (51 <= y (frog s') /\ y (frog s') < 582).
Proof.
  eexists. split; [reflexivity|].
  apply (move_stays_in_field initialState _ 1000 (-1000));
    try (vm_compute; reflexivity); vm_compute; discriminate.
Defined.

(** X15. Where positions and steps are multiples of one half, as they are in
    play, a move that is accepted on both axes from a position inside the
    play field is undone by the opposite move: the player is back at the
    same coordinates. *)
Theorem move_round_trip (s s1 s2 : State) (dx dy : Q) (hx hy hdx hdy : Z) :
  x (frog s) == inject_Z hx / 2 -> y (frog s) == inject_Z hy / 2 ->
  dx == inject_Z hdx / 2 -> dy == inject_Z hdy / 2 ->
  21 <= x (frog s) -> x (frog s) < 580 ->
  51 <= y (frog s) -> y (frog s) < 582 ->
  21 <= x (frog s) + dx -> x (frog s) + dx < 580 ->
  51 <= y (frog s) + dy -> y (frog s) + dy < 582 ->
  reduceState s (Move dx dy) = Some s1 ->
  reduceState s1 (Move (- dx) (- dy)) = Some s2 ->
  x (frog s1) = x (frog s) + dx /\ y (frog s1) = y (frog s) + dy
  /\ x (frog s2) == x (frog s) /\ y (frog s2) == y (frog s).
Proof.
  intros _ _ _ _ Hx1 Hx2 Hy1 Hy2 Hx3 Hx4 Hy3 Hy4 H1 H2.
  destruct (move_result s s1 dx dy H1) as [Ex1 Ey1].
  destruct (move_result s1 s2 (- dx) (- dy) H2) as [Ex2 Ey2].
  destruct (move_bounds (x (frog s) + dx)) as [Bx _].
  destruct (move_bounds (y (frog s) + dy)) as [_ By].
  rewrite (proj2 Bx (conj Hx3 Hx4)) in Ex1.
  rewrite (proj2 By (conj Hy3 Hy4)) in Ey1.
  destruct (move_bounds (x (frog s1) + - dx)) as [Bx' _].
  destruct (move_bounds (y (frog s1) + - dy)) as [_ By'].
  rewrite (proj2 Bx') in Ex2 by (rewrite Ex1; split; lra).
  rewrite (proj2 By') in Ey2 by (rewrite Ey1; split; lra).
  repeat split; try assumption.
  - rewrite Ex2, Ex1. ring.
  - rewrite Ey2, Ey1. ring.
Qed.

Lemma move_round_trip_witness :
  exists s1 s2,
    reduceState initialState moveLeft = Some s1
    /\ reduceState s1 moveRight = Some s2
    /\ x (frog s2) == 279 /\ y (frog s2) == 523.
Proof.
  do 2 eexists. split; [reflexivity|]. split; [reflexivity|].
  refine (proj2 (proj2 (move_round_trip initialState _ _ (-43) 0
                          558 1046 (-86) 0
                          _ _ _ _ _ _ _ _ _ _ _ _ eq_refl _)));
    try (vm_compute; reflexivity); try (vm_compute; discriminate).
Defined.

(** ** Score on a live tick *)

(** X16. A tick on a well-formed live snapshot never lowers the score: the
    new score is the old one, or 100 more, and it is more only when the
    player stood in a target slot; the level stays or goes up by one. *)
Theorem live_tick_score (s : State) :
  well_formed s ->
  gameOver s = false ->
  exists s', tick s = Some s'
    /\ (score s' = score s \/ (score s' = score s + 100 /\ inTarget s = true))
    /\ score s <= score s'
    /\ (level s' = level s \/ level s' = level s + 1).
Proof.
  intros Hwf Hover.
  destruct (tick_playing s Hwf Hover) as (t & Ht & _ & Hsc & _ & _ & _ & _ & _ & Hlev).
  exists (handleCollisions t). split; [exact Ht|].
  cbn [score level handleCollisions with_gameOver].
  destruct (updateScore_cases s _ Hsc) as [E | [E Htar]]; rewrite E.
  - split; [now left|]. split; [lra|].
    destruct Hlev as [(_ & _ & ->) | (_ & _ & ->)]; [now left | now right].
  - split; [right; now split|]. split; [lra|].
    destruct Hlev as [(_ & _ & ->) | (_ & _ & ->)]; [now left | now right].
Qed.

Lemma live_tick_score_witness :
  exists s', tick homeState = Some s' /\ score homeState <= score s'.
Proof.
  destruct (live_tick_score homeState) as (s' & Ht & _ & Hle & _).
  - split; [reflexivity | cbn; lia].
  - reflexivity.
  - exists s'. split; assumption.
Defined.

(** ** Strikes over the whole row of cars *)

(** [frogCollided] as a statement about the cars. *)
Lemma frogCollided_iff (s : State) :
  frogCollided s = true <->
  exists car, In car (cars s)
    /\ y (frog s) == y car
    /\ ((x (frog s) < x car /\ x car < x (frog s) + width (frog s))
        \/ (x (frog s) < x car + width car
            /\ x car + width car < x (frog s) + width (frog s))).
Proof.
  unfold frogCollided. split.
  - intro H. destruct (filter_some_inv _ _ H) as (car & Hin & Hhit).
    exists car. split; [exact Hin|]. now apply obstacleCollision_iff.
  - intros (car & Hin & Hhit).
    apply (filter_some _ _ car Hin). now apply obstacleCollision_iff.
Qed.

(** ** The reducer in play *)

(** X18. The reducer never throws in play: every finite sequence of events,
    whatever the payloads, folds from the initial snapshot to a snapshot, and
    that snapshot still has nine cars, six logs, three turtles and the five
    target slots. *)
Theorem reducer_never_throws (events : list Event) :
  exists s, scan initialState events = Some s
    /\ List.length (cars s) = 9%nat /\ List.length (logs s) = 6%nat
    /\ List.length (turtles s) = 3%nat /\ List.length (filledSpaces s) = 5%nat.
Proof.
  destruct (scan_defined events initialState well_formed_initial) as (s & E & _).
  exists s. split; [exact E|].
  assert (Hreach : reachable_by any_event s).
  { apply (scan_reachable any_event events initialState);
      [apply reach_init | | exact E].
    apply Forall_forall. intros e _. exact I. }
  destruct (reachable_sameLayout _ s Hreach) as (Lc & Ll & Lt & Lf).
  apply (f_equal (@List.length _)) in Lc, Ll, Lt.
  rewrite !length_map in Lc, Ll, Lt.
  rewrite Lc, Ll, Lt, Lf. repeat split.
Qed.

(** X19. [tick] reads [logs[3]] when the player is on a log that is not on
    the row of [logs[0]]: on a live snapshot with fewer than four logs, a
    player outside the target slots in that position makes the tick throw. *)
Theorem tick_throws_short_logs (s : State) (b0 : Body) :
  gameOver s = false ->
  inTarget s = false ->
  frogOnLog s = true ->
  nth_error (logs s) 0 = Some b0 ->
  ~ y (frog s) == y b0 ->
  (List.length (logs s) < 4)%nat ->
  tick s = None.
Proof.
  intros Hover Htar Hlog E0 Hrow Hlen.
  assert (E3 : nth_error (logs s) 3 = None) by (apply nth_error_None; lia).
  assert (Hf : tickFrog s (level s * CONSTANTS.SPEED_INCREASE) = None).
  { unfold tickFrog, and_then, sameRowAs.
    apply Qeqb_neq in Hrow. now rewrite Htar, Hlog, E0, Hrow, E3. }
  unfold tick. rewrite Hover, Hf.
  destruct (updateScore s); destruct (_ <? _)%nat; reflexivity.
Qed.

Lemma tick_throws_short_logs_witness :
  tick (mkState (mkFrog "FROG" 236 110 "../frogger/assets/frog.png" 40 42)
          [] [logAt 1 1; logAt 2 1] [] (filledSpaces initialState) [] 0 0 0 false)
  = None.
Proof.
  apply (tick_throws_short_logs _ (logAt 1 1)).
  - reflexivity.
  - reflexivity.
  - reflexivity.
  - reflexivity.
  - vm_compute. discriminate.
  - cbn. lia.
Defined.

(** X20. [tick] reduces the target slots without a seed: on a live snapshot
    whose slot array is empty, a player in the target zone makes the tick
    throw, while a player elsewhere does not need the slots at all. *)
Theorem tick_throws_no_slots (s : State) :
  gameOver s = false ->
  filledSpaces s = [] ->
  (inTarget s = true -> tick s = None)
  /\ (inTarget s = false ->
      updateScore s = Some (score s)
      /\ updateFilledInd s = Some (filledSpacesIndex s)).
Proof.
  intros Hover Hempty.
  assert (Hnear : nearestObject s = None).
  { unfold nearestObject. now rewrite Hempty. }
  split; intro Htar.
  - unfold tick, updateScore, and_then, checkFilled.
    rewrite Hover, Htar, Hnear.
    destruct (_ <? _)%nat; reflexivity.
  - unfold updateScore, updateFilledInd, and_then. rewrite Htar. split; reflexivity.
Qed.

Lemma tick_throws_no_slots_witness :
  tick (mkState (frog homeState) [] [] [] [] [] 0 0 0 false) = None.
Proof.
  apply (tick_throws_no_slots
           (mkState (frog homeState) [] [] [] [] [] 0 0 0 false));
    reflexivity.
Defined.

(** ** The player's identity *)

Lemma tickFrog_keeps (s : State) (m : Q) (f : Frog) :
  tickFrog s m = Some f ->
  f = frog initialState
  \/ (id f = id (frog s) /\ img f = img (frog s)
      /\ width f = width (frog s) /\ height f = height (frog s)).
Proof.
  unfold tickFrog. intro H.
  destruct (inTarget s); [left; congruence|]. right.
  repeat match type of H with
  | (match ?c with _ => _ end) = Some _ => destruct c; try discriminate
  end;
  injection H as <-; repeat split.
Qed.

(** X21. In every snapshot reachable from the initial one, whatever the
    events, the player keeps its id, image and size: moves, rides and resets
    change its position only. *)
Theorem frog_identity (s : State) :
  reachable_by any_event s ->
  id (frog s) = "FROG"
  /\ img (frog s) = "../frogger/assets/frog.png"
  /\ width (frog s) = CONSTANTS.FROG_WIDTH
  /\ height (frog s) = CONSTANTS.FROG_HEIGHT.
Proof.
  induction 1 as [|s s' e Hreach IH _ Hstep].
  - repeat split.
  - destruct e; cbn [reduceState] in Hstep.
    + destruct (gameOver s) eqn:Hover.
      * unfold tick in Hstep. rewrite Hover in Hstep. injection Hstep as <-.
        repeat split.
      * destruct (tick_playing s (reachable_well_formed _ s Hreach) Hover)
          as (t & Ht & Hf & _).
        rewrite Ht in Hstep. injection Hstep as <-.
        cbn [frog handleCollisions with_gameOver].
        destruct (tickFrog_keeps s _ _ Hf) as [-> | (-> & -> & -> & ->)];
          [repeat split | exact IH].
    + injection Hstep as <-. exact IH.
    + injection Hstep as <-. repeat split.
Qed.

Lemma frog_identity_witness :
  exists s, scan initialState meetCar = Some s
    /\ id (frog s) = "FROG"
    /\ img (frog s) = "../frogger/assets/frog.png"
    /\ width (frog s) = CONSTANTS.FROG_WIDTH
    /\ height (frog s) = CONSTANTS.FROG_HEIGHT.
Proof.
  eexists. split; [vm_compute; reflexivity|].
  apply frog_identity.
  apply (scan_reachable any_event meetCar initialState).
  - apply reach_init.
  - repeat constructor.
  - vm_compute. reflexivity.
Defined.

(** ** Riding off the canvas *)

(** X22. With the game's layout, a live player on a log is lost when the ride
    takes the middle of the player to the right edge while the log itself
    has not yet wrapped: if after the step [x + width/2 >= 600], the tick
    sets the game-over flag. *)
Theorem riding_off_edge (s : State) (l : Body) :
  sameLayout s ->
  gameOver s = false ->
  In l (logs s) ->
  onWaterObj (frog s) l = true ->
  exists s' v,
    tick s = Some s'
    /\ ((v = CONSTANTS.LOG1_SPEED + level s * CONSTANTS.SPEED_INCREASE /\ y l = 228)
        \/ (v = CONSTANTS.LOG2_SPEED + level s * CONSTANTS.SPEED_INCREASE /\ y l = 110))
    /\ x (frog s') = x (frog s) + v
    /\ (x l + v < CONSTANTS.CANVAS_SIZE ->
        CONSTANTS.CANVAS_SIZE <= x (frog s) + v + width (frog s) / 2 ->
        gameOver s' = true).
Proof.
  intros Hlay Hover Hin Hon.
  destruct (tickFrog_on_log s l (level s * CONSTANTS.SPEED_INCREASE) Hlay Hin Hon)
    as (v & Hf & Hmove & Hv).
  destruct (tick_playing s (sameLayout_well_formed s Hlay) Hover)
    as (t & Ht & Hf' & _ & _ & Hl & _).
  assert (Ef : frog t = with_x (frog s) (x (frog s) + v)) by congruence.
  exists (handleCollisions t), v.
  split; [exact Ht|]. split; [exact Hv|].
  split; [cbn [frog handleCollisions with_gameOver]; now rewrite Ef|].
  intros Hstay Hedge.
  assert (Hlog : frogOnLog t = true).
  { apply (filter_some _ _ (moveLog (level s * CONSTANTS.SPEED_INCREASE) l)).
    - rewrite Hl. now apply in_map.
    - apply onWaterObj_iff in Hon. destruct Hon as (H1 & H2 & H3).
      apply onWaterObj_iff. rewrite Ef, Hmove.
      destruct (wrap_keeps l true v) as (_ & Ey & _). rewrite Ey, wrap_x.
      apply Qleb_gt in Hstay. rewrite Hstay.
      cbn [x y with_x]. repeat split; [lra | lra | exact H3]. }
  assert (Hunsafe : unsafeBoundary (frog t) = true).
  { unfold unsafeBoundary. apply orb_true_iff. left. apply Qleb_le.
    rewrite Ef. cbn [x width with_x]. exact Hedge. }
  cbn [gameOver handleCollisions with_gameOver]. unfold frogOnObj.
  rewrite Hlog, Hunsafe. cbn [orb andb negb].
  rewrite andb_false_r, orb_false_r, orb_true_r. reflexivity.
Qed.

Lemma riding_off_edge_witness :
  exists s',
    tick (mkState (mkFrog "FROG" 575 228 "../frogger/assets/frog.png" 40 42)
            (cars initialState)
            [body_with_x (logAt 1 3) 500; logAt 1 2; logAt 1 1;
             logAt 2 3; logAt 2 2; logAt 2 1]
            (turtles initialState) (filledSpaces initialState) [] 0 0 0 false)
      = Some s'
    /\ gameOver s' = true.
Proof.
  destruct (riding_off_edge
              (mkState (mkFrog "FROG" 575 228 "../frogger/assets/frog.png" 40 42)
                 (cars initialState)
                 [body_with_x (logAt 1 3) 500; logAt 1 2; logAt 1 1;
                  logAt 2 3; logAt 2 2; logAt 2 1]
                 (turtles initialState) (filledSpaces initialState) [] 0 0 0 false)
              (body_with_x (logAt 1 3) 500))
    as (s' & v & Ht & Hv & _ & Hdead).
  - repeat split.
  - reflexivity.
  - left. reflexivity.
  - reflexivity.
  - exists s'. split; [exact Ht|].
    destruct Hv as [[-> _] | [_ Hy]]; [|discriminate Hy].
    apply Hdead; vm_compute; [reflexivity | discriminate].
Defined.
